(** * The factoid store of grobbebol (modules/factoid.py)

    A shallow embedding of the core of [factoid.py]: the per-channel cache
    ([get_channel_data]), persistence ([set_channel_data]) and the four
    operations on facts and aliases ([get_value], [add_facts], [set_alias],
    [delete_value]), followed by the properties the specification states
    about them. *)

From Stdlib Require Import Ascii String.
From stdpp Require Import gmap strings list fin_maps sorting.

Local Open Scope string_scope.
Local Open Scope list_scope.

(** ** Strings: [str.lower] and [str.strip]

    Keys and values are byte strings; [lower] folds the letters A-Z and
    [strip] removes the characters of [string.whitespace] from both ends. *)

Definition lower_ascii (a : ascii) : ascii :=
  let n := nat_of_ascii a in
  if (65 <=? n)%nat && (n <=? 90)%nat then ascii_of_nat (n + 32) else a.

Fixpoint lower (s : string) : string :=
  match s with
  | EmptyString => EmptyString
  | String a s' => String (lower_ascii a) (lower s')
  end.

Definition is_space (a : ascii) : bool :=
  let n := nat_of_ascii a in
  (n =? 32)%nat || ((9 <=? n)%nat && (n <=? 13)%nat).

Fixpoint lstrip (s : string) : string :=
  match s with
  | EmptyString => EmptyString
  | String a s' => if is_space a then lstrip s' else s
  end.

Fixpoint rstrip (s : string) : string :=
  match s with
  | EmptyString => EmptyString
  | String a s' =>
      match rstrip s' with
      | EmptyString => if is_space a then EmptyString else String a EmptyString
      | r => String a r
      end
  end.

Definition strip (s : string) : string := rstrip (lstrip s).

(** ** Data

    A fact is the tuple [(key, verb, values)] kept in the facts dict. Its
    third component is a Python list object, which [add_facts] extends in
    place: the tuple holds a reference [loc] into the store of list objects
    ([heap]), not the list itself. *)

Abbreviation loc := nat (only parsing).

Record fact := Fact { name : string; verb : string; values : loc }.

(** What JSON holds for a fact: [[name, verb, [values...]]]. *)
Definition stored_fact : Type := string * string * list string.

(** The database of the bot, [bot.db], restricted to the two keys the module
    uses: ['factoids_facts'] and ['factoids_aliases'], each per channel. *)
Record database := Database {
  factoids_facts : gmap string (gmap string stored_fact);
  factoids_aliases : gmap string (gmap string string)
}.

(** The exported document [{'facts': facts, 'aliases': aliases}]. *)
Record export_doc := ExportDoc {
  doc_facts : gmap string stored_fact;
  doc_aliases : gmap string string
}.

(** The state the module runs in. [facts_cache] and [aliases_cache] are the
    two function attributes of [get_channel_data]. A dict object of a cache
    is reachable only through its channel's slot, so the slot holds the dict
    itself and mutating the dict in place is a write to the slot. *)
Record world := World {
  facts_cache : gmap string (gmap string fact);
  aliases_cache : gmap string (gmap string string);
  heap : list (list string);
  db : database;
  export_dir : option string;
  files : gmap string export_doc
}.

Definition set_facts_cache (fc : gmap string (gmap string fact)) (w : world) : world :=
  World fc (aliases_cache w) (heap w) (db w) (export_dir w) (files w).

Definition set_aliases_cache (ac : gmap string (gmap string string)) (w : world) : world :=
  World (facts_cache w) ac (heap w) (db w) (export_dir w) (files w).

Definition set_heap (h : list (list string)) (w : world) : world :=
  World (facts_cache w) (aliases_cache w) h (db w) (export_dir w) (files w).

Definition set_db (d : database) (w : world) : world :=
  World (facts_cache w) (aliases_cache w) (heap w) d (export_dir w) (files w).

Definition set_files (fs : gmap string export_doc) (w : world) : world :=
  World (facts_cache w) (aliases_cache w) (heap w) (db w) (export_dir w) fs.

(** The [bot] argument of every function stands for the collaborators. Their
    lasting state is in [world]; [bot] tells how they answer during one
    call: whether each write to the database and to the export file goes
    through. Reading the database is taken not to fail. *)
Record bot := Bot {
  set_facts_ok : bool;
  set_aliases_ok : bool;
  export_ok : bool
}.

Definition reliable : bot := Bot true true true.

(** ** Exceptions and the monad of the module *)

(** The five messages a [FactError] is raised with, and the key put in. *)
Inductive message :=
  | AlreadyDefined (key : string)
  | AlreadyAlias (key : string)
  | AlreadyHasFacts (key : string)
  | UnknownFact (key : string)
  | UnknownKey (key : string).

Inductive exn :=
  | FactError (m : message)
  | DatabaseError
  | IOError.

Inductive outcome (A : Type) :=
  | Return (a : A)
  | Raise (e : exn).
Arguments Return {A} a.
Arguments Raise {A} e.

(** A computation runs on a world and leaves a world, also when it raises:
    what was mutated before the exception stays mutated. *)
Definition M (A : Type) : Type := world → outcome A * world.

Definition ret {A} (a : A) : M A := λ w, (Return a, w).

Definition bind {A B} (c : M A) (k : A → M B) : M B :=
  λ w, match c w with
       | (Return a, w') => k a w'
       | (Raise e, w') => (Raise e, w')
       end.

Definition raise {A} (e : exn) : M A := λ w, (Raise e, w).

Definition gets {A} (f : world → A) : M A := λ w, (Return (f w), w).

Definition modify (f : world → world) : M unit := λ w, (Return tt, f w).

Notation "'do' x <- c ; k" := (bind c (λ x, k))
  (at level 10, x pattern, c at level 100, k at level 200,
   format "'[v' 'do'  x  <-  c ; '/' k ']'").

(** ** The store of list objects *)

(** A new list object, as a list display or comprehension makes one. *)
Definition alloc (v : list string) : M loc :=
  λ w, (Return (length (heap w)), set_heap (heap w ++ [v]) w).

(** [values.extend(add)]: the object at [l] grows, whoever refers to it. *)
Definition extend (l : loc) (add : list string) : M unit :=
  modify (λ w, set_heap (alter (λ v, v ++ add) l (heap w)) w).

(** The list an object holds. Every reference the module keeps is to an
    object it made; the default is for references it never makes. *)
Definition contents (h : list (list string)) (l : loc) : list string :=
  default [] (h !! l).

(** ** JSON: what is written to and read from the collaborators *)

Definition encode_fact (h : list (list string)) (f : fact) : stored_fact :=
  (name f, verb f, contents h (values f)).

Definition encode_facts (h : list (list string)) (facts : gmap string fact)
  : gmap string stored_fact :=
  encode_fact h <$> facts.

(** Decoding makes a new list object for the values of every fact. *)
Definition load_fact (sf : stored_fact) : M fact :=
  do l <- alloc sf.2;
  ret (Fact sf.1.1 sf.1.2 l).

Fixpoint load_items (items : list (string * stored_fact)) : M (gmap string fact) :=
  match items with
  | [] => ret ∅
  | (k, sf) :: rest =>
      do m <- load_items rest;
      do f <- load_fact sf;
      ret (<[k:=f]> m)
  end.

Definition load_facts (stored : gmap string stored_fact) : M (gmap string fact) :=
  load_items (map_to_list stored).

(** ** The collaborators *)

(** [bot.db.get_channel_value(channel, key)] for the two keys. *)
Definition get_channel_value_facts (channel : string)
  : M (option (gmap string stored_fact)) :=
  gets (λ w, factoids_facts (db w) !! channel).

Definition get_channel_value_aliases (channel : string)
  : M (option (gmap string string)) :=
  gets (λ w, factoids_aliases (db w) !! channel).

(** [bot.db.set_channel_value(channel, key, value)] for the two keys. The
    value is serialised when the call is made. *)
Definition set_channel_value_facts (b : bot) (channel : string)
    (facts : gmap string fact) : M unit :=
  if set_facts_ok b then
    modify (λ w, set_db (Database (<[channel := encode_facts (heap w) facts]>
                                     (factoids_facts (db w)))
                                  (factoids_aliases (db w))) w)
  else raise DatabaseError.

Definition set_channel_value_aliases (b : bot) (channel : string)
    (aliases : gmap string string) : M unit :=
  if set_aliases_ok b then
    modify (λ w, set_db (Database (factoids_facts (db w))
                                  (<[channel := aliases]>
                                     (factoids_aliases (db w)))) w)
  else raise DatabaseError.

Fixpoint ends_with_sep (s : string) : bool :=
  match s with
  | EmptyString => false
  | String a EmptyString => if ascii_dec a "/" then true else false
  | String _ s' => ends_with_sep s'
  end.

(** [os.path.join(a, b)] *)
Definition path_join (a b : string) : string :=
  if String.prefix "/" b then b
  else if (String.length a =? 0)%nat || ends_with_sep a then a +:+ b
  else a +:+ "/" +:+ b.

(** [with open(fname, 'w') as out: json.dump(obj, out, ...)]; the failure
    is that of [open], which leaves the files as they were. *)
Definition write_export (b : bot) (fname : string) (obj : export_doc) : M unit :=
  if export_ok b then modify (λ w, set_files (<[fname := obj]> (files w)) w)
  else raise IOError.

(** ** get_channel_data and set_channel_data *)

Definition get_cached_facts (channel : string) : M (gmap string fact) :=
  do cache <- gets facts_cache;
  match cache !! channel with
  | Some d => ret d
  | None =>
      do stored <- get_channel_value_facts channel;
      do d <- match stored with
              | None => ret ∅
              | Some s => load_facts s
              end;
      do _ <- modify (λ w, set_facts_cache (<[channel := d]> (facts_cache w)) w);
      ret d
  end.

Definition get_cached_aliases (channel : string) : M (gmap string string) :=
  do cache <- gets aliases_cache;
  match cache !! channel with
  | Some d => ret d
  | None =>
      do stored <- get_channel_value_aliases channel;
      let d := match stored with
               | None => ∅
               | Some s => s
               end in
      do _ <- modify (λ w, set_aliases_cache (<[channel := d]> (aliases_cache w)) w);
      ret d
  end.

Definition get_channel_data (b : bot) (channel : string)
  : M (gmap string fact * gmap string string) :=
  do facts <- get_cached_facts channel;
  do aliases <- get_cached_aliases channel;
  ret (facts, aliases).

Definition set_channel_data (b : bot) (channel : string)
    (facts : gmap string fact) (aliases : gmap string string) : M unit :=
  do _ <- set_channel_value_facts b channel facts;
  do _ <- set_channel_value_aliases b channel aliases;
  do dir <- gets export_dir;
  match dir with
  | Some d =>
      do h <- gets heap;
      let obj := ExportDoc (encode_facts h facts) aliases in
      let fname := path_join d (channel +:+ ".json") in
      write_export b fname obj
  | None => ret tt
  end.

(** ** Mutating the dicts of a channel in place

    Each takes the dict as the caller sees it, writes the change to the
    channel's slot of the cache and gives the dict as it then is. *)

Definition facts_setitem (channel : string) (facts : gmap string fact)
    (k : string) (f : fact) : M (gmap string fact) :=
  let facts := <[k:=f]> facts in
  do _ <- modify (λ w, set_facts_cache (<[channel := facts]> (facts_cache w)) w);
  ret facts.

Definition facts_delitem (channel : string) (facts : gmap string fact)
    (k : string) : M (gmap string fact) :=
  let facts := delete k facts in
  do _ <- modify (λ w, set_facts_cache (<[channel := facts]> (facts_cache w)) w);
  ret facts.

Definition aliases_setitem (channel : string) (aliases : gmap string string)
    (k v : string) : M (gmap string string) :=
  let aliases := <[k:=v]> aliases in
  do _ <- modify (λ w, set_aliases_cache (<[channel := aliases]> (aliases_cache w)) w);
  ret aliases.

Definition aliases_delitem (channel : string) (aliases : gmap string string)
    (k : string) : M (gmap string string) :=
  let aliases := delete k aliases in
  do _ <- modify (λ w, set_aliases_cache (<[channel := aliases]> (aliases_cache w)) w);
  ret aliases.

(** ** The operations *)

(** The [try: key = aliases[key.lower()] except KeyError: pass] of three of
    the functions. *)
Definition resolve_alias (aliases : gmap string string) (key : string) : string :=
  match aliases !! lower key with
  | Some target => target
  | None => key
  end.

Definition get_value (b : bot) (channel key : string) : M (option fact) :=
  do (facts, aliases) <- get_channel_data b channel;
  let key := resolve_alias aliases key in
  ret (facts !! lower key).

Definition add_facts (b : bot) (channel key verb : string) (add : list string)
    (also : bool) : M unit :=
  do (facts, aliases) <- get_channel_data b channel;
  let add := strip <$> add in
  let key := resolve_alias aliases key in
  do (key, verb, values) <-
    match facts !! lower key with
    | Some (Fact key verb values) =>
        if negb also then raise (FactError (AlreadyDefined key))
        else
          do _ <- extend values add;
          ret (key, verb, values)
    | None =>
        do values <- alloc add;
        ret (key, verb, values)
    end;
  do facts <- facts_setitem channel facts (lower key) (Fact key verb values);
  set_channel_data b channel facts aliases.

Definition set_alias (b : bot) (channel key value : string) : M unit :=
  do (facts, aliases) <- get_channel_data b channel;
  match aliases !! lower key with
  | Some _ => raise (FactError (AlreadyAlias key))
  | None =>
  match facts !! lower key with
  | Some _ => raise (FactError (AlreadyHasFacts key))
  | None =>
  let value := resolve_alias aliases value in
  match facts !! lower value with
  | None => raise (FactError (UnknownFact value))
  | Some _ =>
      do aliases <- aliases_setitem channel aliases (lower key) (lower value);
      set_channel_data b channel facts aliases
  end end end.

(** [for k in [...]: del aliases[k]] *)
Fixpoint del_aliases (channel : string) (aliases : gmap string string)
    (ks : list string) : M (gmap string string) :=
  match ks with
  | [] => ret aliases
  | k :: ks' =>
      do aliases <- aliases_delitem channel aliases k;
      del_aliases channel aliases ks'
  end.

(** [[k for (k, v) in aliases.items() if v == key.lower()]] *)
Definition pointing_to (aliases : gmap string string) (target : string)
  : list string :=
  (filter (λ kv, kv.2 = target) (map_to_list aliases)).*1.

Definition delete_value (b : bot) (channel key : string) : M unit :=
  do (facts, aliases) <- get_channel_data b channel;
  do (facts, aliases) <-
    match facts !! lower key with
    | Some _ =>
        do facts <- facts_delitem channel facts (lower key);
        do aliases <- del_aliases channel aliases (pointing_to aliases (lower key));
        ret (facts, aliases)
    | None =>
        match aliases !! lower key with
        | Some _ =>
            do aliases <- aliases_delitem channel aliases (lower key);
            ret (facts, aliases)
        | None => raise (FactError (UnknownKey key))
        end
    end;
  set_channel_data b channel facts aliases.

(** What a caller reads from [get_value]: the tuple it returns, with the
    values read off the list object the tuple refers to. *)
Definition lookup (b : bot) (channel key : string) (w : world)
  : option stored_fact :=
  match get_value b channel key w with
  | (Return (Some f), w') => Some (encode_fact (heap w') f)
  | _ => None
  end.

(** ** The calls that change a channel, and what can be seen of one *)

(** The three calls that change a channel's data. *)
Inductive call :=
  | AddFacts (key verb : string) (add : list string) (also : bool)
  | SetAlias (key value : string)
  | DeleteValue (key : string).

Definition perform (b : bot) (channel : string) (op : call) : M unit :=
  match op with
  | AddFacts key verb add also => add_facts b channel key verb add also
  | SetAlias key value => set_alias b channel key value
  | DeleteValue key => delete_value b channel key
  end.

(** The facts and aliases of a channel as [get_channel_data] gives them,
    with the values of each fact read off its list object. *)
Definition channel_state (b : bot) (channel : string) (w : world)
  : option (gmap string stored_fact * gmap string string) :=
  match get_channel_data b channel w with
  | (Return (fd, ad), w') => Some (encode_facts (heap w') fd, ad)
  | _ => None
  end.

(** Both writes to the database go through, and so does the export when
    one is configured. *)
Definition persists (b : bot) (w : world) : bool :=
  set_facts_ok b && set_aliases_ok b &&
  match export_dir w with
  | Some _ => export_ok b
  | None => true
  end.

(** What a failed export makes of a call that would have returned. *)
Definition only_export_missing (r : outcome unit) (w' : world)
    (r0 : outcome unit) (w0 : world) (w : world) : Prop :=
  match r0 with
  | Return _ =>
      r = Raise IOError ∧ db w' = db w0 ∧
      facts_cache w' = facts_cache w0 ∧ aliases_cache w' = aliases_cache w0 ∧
      heap w' = heap w0 ∧ files w' = files w
  | Raise e => r = Raise e ∧ w' = w0
  end.

(** ** The worlds a call passes through

    The database after the writes of [set_channel_data], and the world at
    the point where each function calls it. *)

(** The database after the facts, then the aliases, of a channel are set. *)
Definition db_with_facts (c : string) (fd : gmap string fact) (w : world) : database :=
  Database (<[c := encode_facts (heap w) fd]> (factoids_facts (db w)))
           (factoids_aliases (db w)).

Definition db_with_both (c : string) (fd : gmap string fact)
    (ad : gmap string string) (w : world) : database :=
  Database (<[c := encode_facts (heap w) fd]> (factoids_facts (db w)))
           (<[c := ad]> (factoids_aliases (db w))).

(** The world when [add_facts] reaches [set_channel_data] on the path that
    finds a fact, and on the path that makes one. *)
Definition appended (c : string) (fd : gmap string fact) (f : fact)
    (add : list string) (w1 : world) : world :=
  set_facts_cache (<[c := <[lower (name f) := f]> fd]> (facts_cache w1))
    (set_heap (alter (λ v, v ++ add) (values f) (heap w1)) w1).

Definition created (c : string) (fd : gmap string fact) (key verb : string)
    (add : list string) (w1 : world) : world :=
  set_facts_cache
    (<[c := <[lower key := Fact key verb (length (heap w1))]> fd]> (facts_cache w1))
    (set_heap (heap w1 ++ [add]) w1).

Definition aliased (c : string) (ad : gmap string string) (k t : string)
    (w1 : world) : world :=
  set_aliases_cache (<[c := <[k := t]> ad]> (aliases_cache w1)) w1.

(** Deleting keys one after the other, as the loop of [delete_value] does. *)
Definition delete_each (ks : list string) (ad : gmap string string)
  : gmap string string :=
  foldl (λ m k, delete k m) ad ks.

(** The world when [delete_value] reaches [set_channel_data], for a fact
    and for an alias. *)
Definition fact_forgotten (c : string) (fd : gmap string fact)
    (ad : gmap string string) (k : string) (w1 : world) : world :=
  set_aliases_cache (<[c := filter (λ kv, kv.2 ≠ k) ad]> (aliases_cache w1))
    (set_facts_cache (<[c := delete k fd]> (facts_cache w1)) w1).

Definition alias_forgotten (c : string) (ad : gmap string string) (k : string)
    (w1 : world) : world :=
  set_aliases_cache (<[c := delete k ad]> (aliases_cache w1)) w1.

(** ** What a call does to the dicts of its channel *)

(** [change h fd ad op h' fd' ad']: the call [op], run on the dicts [fd] and
    [ad] and the list objects [h], leaves the dicts [fd'] and [ad'] and the
    list objects [h']. One case for each path through the three functions
    that ends in [set_channel_data], and one for the paths that raise. *)
Inductive change (h : list (list string)) (fd : gmap string fact)
    (ad : gmap string string)
  : call → list (list string) → gmap string fact → gmap string string → Prop :=
  | change_none op : change h fd ad op h fd ad
  | change_create key verb add also :
      fd !! lower (resolve_alias ad key) = None →
      change h fd ad (AddFacts key verb add also)
        (h ++ [strip <$> add])
        (<[lower (resolve_alias ad key) :=
            Fact (resolve_alias ad key) verb (length h)]> fd)
        ad
  | change_append key verb add f :
      fd !! lower (resolve_alias ad key) = Some f →
      change h fd ad (AddFacts key verb add true)
        (alter (λ vs, vs ++ (strip <$> add)) (values f) h)
        (<[lower (name f) := f]> fd)
        ad
  | change_alias key value :
      ad !! lower key = None → fd !! lower key = None →
      is_Some (fd !! lower (resolve_alias ad value)) →
      change h fd ad (SetAlias key value) h fd
        (<[lower key := lower (resolve_alias ad value)]> ad)
  | change_forget_fact key :
      is_Some (fd !! lower key) →
      change h fd ad (DeleteValue key) h
        (delete (lower key) fd)
        (filter (λ kv, kv.2 ≠ lower key) ad)
  | change_forget_alias key :
      fd !! lower key = None → is_Some (ad !! lower key) →
      change h fd ad (DeleteValue key) h fd (delete (lower key) ad).

(** ** Worlds that can be reached *)

(** A bot that starts on a database, with nothing in memory yet. *)
Definition boot (d : database) (dir : option string) : world :=
  World ∅ ∅ [] d dir ∅.

(** A bot boots on a database [d] with nothing in memory, and then serves
    calls: the three that change a channel, restricted to those that
    satisfy [P], and lookups. Any of them may hit failing collaborators. *)
Inductive reachable (d : database) (P : call → Prop) : world → Prop :=
  | reachable_boot dir : reachable d P (boot d dir)
  | reachable_perform b c op w :
      reachable d P w → P op → reachable d P (perform b c op w).2
  | reachable_get_value b c key w :
      reachable d P w → reachable d P (get_value b c key w).2.

(** List objects are never removed and never shrink. *)
Definition grows (h h' : list (list string)) : Prop :=
  ∀ l vs, h !! l = Some vs → ∃ vs', h' !! l = Some vs' ∧ vs `prefix_of` vs'.

(** [Inv] holds of every channel in the cache, and the channels not in the
    cache have in the database what they had at boot. *)
Definition holds_everywhere (d : database)
    (Inv : gmap string fact → gmap string string → list (list string) → Prop)
    (w : world) : Prop :=
  ∀ c, match facts_cache w !! c, aliases_cache w !! c with
       | Some fd, Some ad => Inv fd ad (heap w)
       | None, None =>
           factoids_facts (db w) !! c = factoids_facts d !! c ∧
           factoids_aliases (db w) !! c = factoids_aliases d !! c
       | _, _ => False
       end.

(** ** Conditions on the data of a channel *)

(** The facts and aliases of a channel fit together: a fact is kept under
    its name, case-folded; the target of an alias is case-folded and is the
    key of a fact; the key of an alias is not the key of a fact. [nm] reads
    the name off a fact, cached or stored. *)
Definition consistent {A} (nm : A → string) (F : gmap string A)
    (ad : gmap string string) : Prop :=
  (∀ k x, F !! k = Some x → lower (nm x) = k) ∧
  (∀ a t, ad !! a = Some t → lower t = t ∧ is_Some (F !! t)) ∧
  (∀ a t, ad !! a = Some t → F !! a = None).

Definition stored_name (sf : stored_fact) : string := sf.1.1.

Definition db_consistent (d : database) : Prop :=
  ∀ c, consistent stored_name (default ∅ (factoids_facts d !! c))
         (default ∅ (factoids_aliases d !! c)).

(** Every fact refers to a list object that holds at least one value. *)
Definition all_valued (fd : gmap string fact) (h : list (list string)) : Prop :=
  ∀ k f, fd !! k = Some f → ∃ vs, h !! values f = Some vs ∧ vs ≠ [].

Definition db_valued (d : database) : Prop :=
  ∀ c s k sf, factoids_facts d !! c = Some s → s !! k = Some sf → sf.2 ≠ [].

(** The calls whose batch of values, if they have one, is not empty. *)
Definition with_values (op : call) : Prop :=
  match op with
  | AddFacts _ _ add _ => add ≠ []
  | _ => True
  end.

(** ** Bots and worlds to run the functions on *)

Definition empty_db : database := Database ∅ ∅.

(** A database in which #chan knows "Foo" and has "foobar" as alias for it. *)
Definition sample_db : database :=
  Database {[ "#chan" := {[ "foo" := ("Foo", "is", ["a common placeholder"]) ]} ]}
           {[ "#chan" := {[ "foobar" := "foo" ]} ]}.

Definition sample_world : world := boot sample_db (Some "/srv/export").

(** A bot whose database takes both writes and whose export file cannot be
    opened. *)
Definition export_failing : bot := Bot true true false.

(** A bot whose database refuses the first write. *)
Definition db_failing : bot := Bot false true true.

(** A world reached in three calls: "Foo" is taught, "bar" is made an alias
    for it and "baz" an alias for "bar". *)
Definition aliased_world : world :=
  (perform reliable "#chan" (SetAlias "baz" "Bar")
     (perform reliable "#chan" (SetAlias "bar" "FOO")
        (perform reliable "#chan" (AddFacts "Foo" "is" ["x"] false)
           (boot empty_db None)).2).2).2.

(** A world reached in two calls, the second with a batch whose only entry
    is blank. *)
Definition blank_world : world :=
  (perform reliable "#chan" (AddFacts "foo" "is" ["   "] true)
     (perform reliable "#chan" (AddFacts "Foo" "is" ["x"] false)
        (boot empty_db None)).2).2.

(** ** Strings: what the commands use of [str] and [re] *)

(** The double quote, which the message of one error contains. *)
Definition dquote : string :=
  String (Ascii false true false false false true false false) EmptyString.

(** [sep.join(l)] *)
Fixpoint str_join (sep : string) (l : list string) : string :=
  match l with
  | [] => EmptyString
  | x :: rest =>
      match rest with
      | [] => x
      | _ => x +:+ sep +:+ str_join sep rest
      end
  end.

(** [s.split(sep)] for a separator that is not empty: the pieces between
    the occurrences of [sep], found from the left and not overlapping.
    [skip] counts the characters of an occurrence still to be passed over,
    [cur] is the piece read so far. *)
Fixpoint split_from (sep : string) (skip : nat) (cur s : string) : list string :=
  match s with
  | EmptyString => [cur]
  | String a s' =>
      match skip with
      | S n => split_from sep n cur s'
      | O =>
          if String.prefix sep s
          then cur :: split_from sep (String.length sep - 1) EmptyString s'
          else split_from sep 0 (cur +:+ String a EmptyString) s'
      end
  end.

Definition str_split (sep s : string) : list string :=
  split_from sep 0 EmptyString s.

(** [s[-1]], which raises on the empty string, and [s[:-1]]. *)
Fixpoint last_char (s : string) : option ascii :=
  match s with
  | EmptyString => None
  | String a EmptyString => Some a
  | String _ s' => last_char s'
  end.

Fixpoint but_last (s : string) : string :=
  match s with
  | EmptyString => EmptyString
  | String a EmptyString => EmptyString
  | String a s' => String a (but_last s')
  end.

(** [re.split("\s+", s, maxsplit)] for a [maxsplit] that is not zero: [s]
    is cut at runs of whitespace, at most [left] more times; what then
    remains is the last piece, whitespace and all. [skipping] says that the
    run that made the last cut is still being passed over. *)
Fixpoint re_split_from (left : nat) (skipping : bool) (cur s : string)
  : list string :=
  match s with
  | EmptyString => [cur]
  | String a s' =>
      if is_space a then
        if skipping then re_split_from left true cur s'
        else
          match left with
          | S n => cur :: re_split_from n true EmptyString s'
          | O => re_split_from 0 false (cur +:+ String a EmptyString) s'
          end
      else re_split_from left false (cur +:+ String a EmptyString) s'
  end.

Definition re_split_spaces (s : string) (maxsplit : nat) : list string :=
  re_split_from maxsplit false EmptyString s.

(** [sorted(l)] on strings, which compare character by character. *)
Definition sorted (l : list string) : list string :=
  merge_sort String.le l.

(** A list without the empty strings it begins with. *)
Fixpoint drop_leading_empty (l : list string) : list string :=
  match l with
  | EmptyString :: rest => drop_leading_empty rest
  | _ => l
  end.

(** What [if x] and [if not x] test of a group that may be absent, and
    what ['{}'.format(x)] prints for it. *)
Definition truthy (x : option string) : bool :=
  match x with
  | Some (String _ _) => true
  | _ => false
  end.

Definition format_arg (x : option string) : string :=
  match x with
  | Some s => s
  | None => "None"
  end.

(** [str(exc)] for a [FactError]: the message it was raised with. *)
Definition message_text (m : message) : string :=
  match m with
  | AlreadyDefined key =>
      key +:+ " is already defined. Say " +:+ dquote +:+ key
          +:+ " is also ..." +:+ dquote +:+ " to add an additional meaning"
  | AlreadyAlias key =>
      key +:+ " is already an alias, use the delete/forget command to remove the alias first."
  | AlreadyHasFacts key =>
      key +:+ " already has facts, use the delete/forget command to remove the alias first."
  | UnknownFact value =>
      value +:+ " is not defined yet. Define it first before you can add an alias."
  | UnknownKey key => "I don't know about " +:+ key
  end.

(** ** The commands

    A command is a function of the bot and of a trigger. Of the trigger it
    reads the sender, the nick and some groups of the match; these are its
    arguments here, a group that the command's pattern can leave out being
    an [option]. What a command says through the bot is collected in the
    order it is said: no command says anything before a call that can
    raise. *)

Inductive event :=
  | Reply (text : string)
  | Say (text : string) (max_messages : nat)
  | Msg (recipient text : string) (max_messages : nat).

(** What ends a command other than returning: an exception that the module
    raised and the command did not catch, or one raised by Python. *)
Inductive crash :=
  | Uncaught (e : exn)
  | IndexError
  | ValueError.

Inductive handled :=
  | Done (out : list event)
  | Crashed (c : crash).

Definition command := world → handled * world.

Definition finish (body : M (list event)) : command :=
  λ w, match body w with
       | (Return out, w') => (Done out, w')
       | (Raise e, w') => (Crashed (Uncaught e), w')
       end.

(** A command that only says something. *)
Definition just (out : list event) : command := λ w, (Done out, w).

(** [try: ... except FactError as exc: bot.reply(exc)] *)
Definition except_fact_error (body : M (list event)) : M (list event) :=
  λ w, match body w with
       | (Raise (FactError m), w') => (Return [Reply (message_text m)], w')
       | r => r
       end.

Module Commands.

(** The loop of [do_get] that puts the values of a fact in one line. *)
Definition format_values (values : list string) : string :=
  foldl (λ formatted value,
           match formatted with
           | EmptyString => formatted +:+ value
           | _ => formatted +:+ " and also " +:+ value
           end)
        EmptyString values.

Definition do_get (b : bot) (channel target key : string) (error : bool)
  : M (list event) :=
  do value <- get_value b channel key;
  match value with
  | None =>
      if error then ret [Reply ("Sorry, I don't know about " +:+ key)]
      else ret []
  | Some (Fact key verb values) =>
      do h <- gets heap;
      let formatted := format_values (contents h values) in
      let max_messages := 3 in
      ret [Say (target +:+ ": " +:+ key +:+ " " +:+ verb +:+ " " +:+ formatted)
               max_messages]
  end.

(** [.<key> is|are [also ]<facts>] in a channel *)
Definition learn (b : bot) (sender key verb : string) (also : option string)
    (facts : string) : command :=
  match last_char facts with
  | None => λ w, (Crashed IndexError, w)
  | Some c =>
      let facts := if decide (c = "."%char) then but_last facts else facts in
      finish (except_fact_error (
        do _ <- add_facts b sender key verb (str_split " and also " facts)
                  (truthy also);
        if truthy also then ret [Reply ("I now know more about " +:+ key)]
        else ret [Reply ("I now know about " +:+ key)]))
  end.

(** [.<key> aliases|refers to <target>] in a channel *)
Definition alias (b : bot) (sender key target : string) : command :=
  finish (except_fact_error (
    do _ <- set_alias b sender key target;
    ret [Reply (key +:+ " is now an alias for " +:+ target)])).

(** [.forget <key>] in a channel *)
Definition forget (b : bot) (sender key : string) : command :=
  finish (except_fact_error (
    do _ <- delete_value b sender key;
    ret [Reply ("I forgot about " +:+ key)])).

(** [.<key>], [.tell|teach <target> about <key>] and [.give <target> <key>]
    in a channel *)
Definition get (b : bot) (sender nick : string) (target : option string)
    (key : string) : command :=
  let error := truthy target in
  let target := if truthy target then format_arg target else nick in
  finish (do_get b sender target key error).

Definition invalid_channel (channels : list string) (channel : option string)
  : bool :=
  negb (truthy channel) ||
  match channel with
  | Some c => negb (bool_decide (c ∈ channels))
  | None => true
  end.

Definition invalid_channel_reply (channels : list string)
    (channel : option string) : event :=
  Reply ("Invalid channel specified: " +:+ format_arg channel
           +:+ ". Valid channels are " +:+ str_join ", " channels).

(** [.factoid get <channel> <key>] in a private message. [channels] is
    [bot.channels]. *)
Definition getcmd (b : bot) (channels : list string) (nick : string)
    (channel : option string) (key : string) : command :=
  if invalid_channel channels channel
  then just [invalid_channel_reply channels channel]
  else finish (do_get b (format_arg channel) nick key true).

(** [.factoid add <channel> <key> <verb> <value>] in a private message;
    [args] is all that follows the command. *)
Definition addcmd (b : bot) (channels : list string) (args : string) : command :=
  match re_split_spaces args 3 with
  | [channel; key; verb; value] =>
      if invalid_channel channels (Some channel)
      then just [invalid_channel_reply channels (Some channel)]
      else if negb (bool_decide (verb ∈ ["is"; "are"]))
      then just [Reply ("Only 'is' and 'are' are supported as verbs, not "
                          +:+ verb)]
      else
        finish (except_fact_error (
          do _ <- add_facts b channel key verb (str_split ", and also " value)
                    true;
          ret [Reply ("I now know (more) about " +:+ key)]))
  | args =>
      if (length args <? 4)%nat then just [Reply "Need at least 4 arguments"]
      else λ w, (Crashed ValueError, w)
  end.

(** [.factoid alias add <channel> <key> <value>] in a private message *)
Definition addaliascmd (b : bot) (channels : list string)
    (channel : option string) (key value : string) : command :=
  if invalid_channel channels channel
  then just [invalid_channel_reply channels channel]
  else
    finish (except_fact_error (
      do _ <- set_alias b (format_arg channel) key value;
      ret [Reply (key +:+ " is now an alias for " +:+ value)])).

(** [.factoid delete <channel> <key>] in a private message *)
Definition delete (b : bot) (channels : list string)
    (channel : option string) (key : string) : command :=
  if invalid_channel channels channel
  then just [invalid_channel_reply channels channel]
  else
    finish (except_fact_error (
      do _ <- delete_value b (format_arg channel) key;
      ret [Reply ("I forgot about " +:+ key)])).

(** [.factoid list <channel>] in a private message *)
Definition listnames (b : bot) (channels : list string) (nick : string)
    (channel : option string) : command :=
  if invalid_channel channels channel
  then just [invalid_channel_reply channels channel]
  else
    finish (
      do (facts, aliases) <- get_channel_data b (format_arg channel);
      let factnames := (λ kv, name kv.2) <$> map_to_list facts in
      ret [Msg nick ("Facts: " +:+ str_join ", " (sorted factnames)) 10;
           Msg nick ("Aliases: " +:+ str_join ", "
                                       (sorted (map_to_list aliases).*1)) 10]).

End Commands.

(** ** More bots and worlds to run the functions on *)

(** A bot whose database takes the facts and refuses the aliases. *)
Definition aliases_failing : bot := Bot true false true.

(** A world reached by two commands: "Foo" is taught in #chan with two
    values, and "Bar" is made an alias for it in a private message. *)
Definition taught_world : world :=
  (Commands.addaliascmd reliable ["#chan"] (Some "#chan") "Bar" "FOO"
     (Commands.learn reliable "#chan" "Foo" "is" None "x and also y."
        (boot empty_db None)).2).2.

(** ** List objects and channels *)

(** Every fact in the cache refers to a list object that exists, and no
    list object is referred to from two channels. *)
Definition owned_apart (w : world) : Prop :=
  (∀ c fd k f,
     facts_cache w !! c = Some fd → fd !! k = Some f →
     values f < length (heap w)) ∧
  (∀ c1 c2 fd1 fd2 k1 k2 f1 f2,
     c1 ≠ c2 →
     facts_cache w !! c1 = Some fd1 → facts_cache w !! c2 = Some fd2 →
     fd1 !! k1 = Some f1 → fd2 !! k2 = Some f2 →
     values f1 ≠ values f2).

(** ** The requests the bot serves

    One constructor for each command of the module, with the arguments the
    command reads from its trigger; [serve] is the command the bot runs for
    a request. *)
Inductive request :=
  | Learn (sender key verb : string) (also : option string) (facts : string)
  | Alias (sender key target : string)
  | Forget (sender key : string)
  | Get (sender nick : string) (target : option string) (key : string)
  | GetCmd (nick : string) (channel : option string) (key : string)
  | AddCmd (args : string)
  | AddAliasCmd (channel : option string) (key value : string)
  | Delete (channel : option string) (key : string)
  | ListNames (nick : string) (channel : option string).

Definition serve (b : bot) (channels : list string) (rq : request) : command :=
  match rq with
  | Learn sender key verb also facts =>
      Commands.learn b sender key verb also facts
  | Alias sender key target => Commands.alias b sender key target
  | Forget sender key => Commands.forget b sender key
  | Get sender nick target key => Commands.get b sender nick target key
  | GetCmd nick channel key => Commands.getcmd b channels nick channel key
  | AddCmd args => Commands.addcmd b channels args
  | AddAliasCmd channel key value =>
      Commands.addaliascmd b channels channel key value
  | Delete channel key => Commands.delete b channels channel key
  | ListNames nick channel => Commands.listnames b channels nick channel
  end.

(** The worlds a bot gets to by serving requests, from a boot on [d]. *)
Inductive served (d : database) : world → Prop :=
  | served_boot dir : served d (boot d dir)
  | served_request b channels rq w :
      served d w → served d (serve b channels rq w).2.


(** The requests that come in a private message and name their channel. *)
Definition in_private (rq : request) : bool :=
  match rq with
  | GetCmd _ _ _ | AddCmd _ | AddAliasCmd _ _ _ | Delete _ _ | ListNames _ _ =>
      true
  | _ => false
  end.

(** * Properties *)

(** ** Strings *)

Lemma lower_ascii_idem a : lower_ascii (lower_ascii a) = lower_ascii a.
Proof. destruct a as [[] [] [] [] [] [] [] []]; reflexivity. Qed.

Lemma lower_idem s : lower (lower s) = lower s.
Proof.
  induction s as [|a s IH]; simpl; [done|].
  by rewrite lower_ascii_idem, IH.
Qed.

(** ** How the functions run *)

Ltac run := unfold bind, ret, gets, modify, raise; simpl.

Lemma world_eta w :
  World (facts_cache w) (aliases_cache w) (heap w) (db w) (export_dir w) (files w) = w.
Proof. by destruct w. Qed.

Lemma load_items_run items w :
  ∃ d hs, load_items items w = (Return d, set_heap (heap w ++ hs) w).
Proof.
  induction items as [|[k [[n v] vs]] rest IH]; simpl.
  - exists ∅, []. unfold ret, set_heap. by rewrite app_nil_r, world_eta.
  - destruct IH as (d & hs & IH).
    unfold bind, load_fact, bind, alloc, ret. rewrite IH. simpl.
    eexists _, (hs ++ [vs]). unfold set_heap. simpl. by rewrite app_assoc.
Qed.

(** Reading the facts of a channel: from the cache, or else from the
    database, which fills the cache and makes list objects. *)
Lemma get_cached_facts_run c w :
  (∃ fd, facts_cache w !! c = Some fd ∧ get_cached_facts c w = (Return fd, w)) ∨
  (facts_cache w !! c = None ∧
   ∃ fd hs w0,
     match factoids_facts (db w) !! c with
     | Some s => load_facts s
     | None => ret ∅
     end w = (Return fd, w0) ∧
     w0 = set_heap (heap w ++ hs) w ∧
     get_cached_facts c w =
       (Return fd, set_facts_cache (<[c:=fd]> (facts_cache w)) w0)).
Proof.
  unfold get_cached_facts, get_channel_value_facts. run.
  destruct (facts_cache w !! c) as [fd|] eqn:Hc; [left; eauto|right].
  split; [done|].
  destruct (factoids_facts (db w) !! c) as [s|].
  - destruct (load_items_run (map_to_list s) w) as (d & hs & Hl).
    unfold load_facts. rewrite Hl. simpl. by exists d, hs, (set_heap (heap w ++ hs) w).
  - exists ∅, [], w. unfold set_heap. by rewrite app_nil_r, world_eta.
Qed.

Lemma get_cached_aliases_run c w :
  (∃ ad, aliases_cache w !! c = Some ad ∧ get_cached_aliases c w = (Return ad, w)) ∨
  (aliases_cache w !! c = None ∧
   get_cached_aliases c w =
     let ad := default ∅ (factoids_aliases (db w) !! c) in
     (Return ad, set_aliases_cache (<[c:=ad]> (aliases_cache w)) w)).
Proof.
  unfold get_cached_aliases, get_channel_value_aliases. run.
  destruct (aliases_cache w !! c) as [ad|] eqn:Hc; [left; eauto|right].
  split; [done|]. by destruct (factoids_aliases (db w) !! c).
Qed.

(** [get_channel_data] always returns; afterwards both dicts are in the
    cache, and only the channel's slots and the store of list objects (which
    may have grown) differ. *)
Lemma get_channel_data_run b c w :
  ∃ fd ad w1 hs,
    get_channel_data b c w = (Return (fd, ad), w1) ∧
    facts_cache w1 = <[c:=fd]> (facts_cache w) ∧
    aliases_cache w1 = <[c:=ad]> (aliases_cache w) ∧
    heap w1 = heap w ++ hs ∧
    db w1 = db w ∧ export_dir w1 = export_dir w ∧ files w1 = files w.
Proof.
  unfold get_channel_data, bind.
  destruct (get_cached_facts_run c w)
    as [(fd & Hfc & ->)|(Hfc & fd & hs & w0 & _ & -> & ->)].
  - destruct (get_cached_aliases_run c w) as [(ad & Hac & ->)|(Hac & ->)]; simpl.
    + exists fd, ad, w, []. rewrite app_nil_r, !insert_id by done. done.
    + eexists fd, _, _, []. split; [done|]. simpl.
      rewrite app_nil_r, insert_id by done. done.
  - match goal with |- context [get_cached_aliases c ?w1] =>
      destruct (get_cached_aliases_run c w1) as [(ad & Hac & ->)|(Hac & ->)]
    end; simpl in *.
    + exists fd, ad. eexists _, hs. split; [done|]. simpl.
      rewrite (insert_id (aliases_cache w)) by done. done.
    + eexists fd, _, _, hs. split; [done|]. done.
Qed.

(** Once a channel is in the cache the database is not read again. *)
Lemma get_channel_data_cached b c w fd ad :
  facts_cache w !! c = Some fd → aliases_cache w !! c = Some ad →
  get_channel_data b c w = (Return (fd, ad), w).
Proof.
  intros Hf Ha. unfold get_channel_data, get_cached_facts, get_cached_aliases.
  run. by rewrite Hf, Ha.
Qed.

Lemma get_channel_data_again b b' c w fd ad w1 :
  get_channel_data b c w = (Return (fd, ad), w1) →
  get_channel_data b' c w1 = (Return (fd, ad), w1).
Proof.
  intros H. destruct (get_channel_data_run b c w)
    as (fd' & ad' & w1' & hs & H' & Hf & Ha & _).
  rewrite H in H'. injection H' as <- <- <-.
  apply get_channel_data_cached.
  - by rewrite Hf, lookup_insert_eq.
  - by rewrite Ha, lookup_insert_eq.
Qed.

(** [set_channel_data], statement by statement: the first write that fails
    ends it, with the earlier writes done. *)
Lemma set_channel_data_run b c fd ad w :
  set_channel_data b c fd ad w =
    if set_facts_ok b then
      if set_aliases_ok b then
        let w2 := set_db (db_with_both c fd ad w) w in
        match export_dir w with
        | Some d =>
            if export_ok b then
              (Return tt,
               set_files (<[path_join d (c +:+ ".json") :=
                            ExportDoc (encode_facts (heap w) fd) ad]> (files w)) w2)
            else (Raise IOError, w2)
        | None => (Return tt, w2)
        end
      else (Raise DatabaseError, set_db (db_with_facts c fd w) w)
    else (Raise DatabaseError, w).
Proof.
  unfold set_channel_data, set_channel_value_facts, set_channel_value_aliases,
    write_export.
  destruct b as [[] [] []]; run; try done; by destruct (export_dir w).
Qed.

(** Persisting touches neither the caches nor the list objects, and what
    it raises is never a [FactError]. *)
Lemma set_channel_data_frame b c fd ad w r w' :
  set_channel_data b c fd ad w = (r, w') →
  facts_cache w' = facts_cache w ∧ aliases_cache w' = aliases_cache w ∧
  heap w' = heap w ∧ export_dir w' = export_dir w ∧
  (∀ m, r ≠ Raise (FactError m)).
Proof.
  rewrite set_channel_data_run.
  destruct b as [[] [] []]; simpl; destruct (export_dir w) eqn:E; simpl;
    intros [= <- <-]; simpl; rewrite ?E; done.
Qed.

Lemma set_channel_data_reliable c fd ad w :
  ∃ w', set_channel_data reliable c fd ad w = (Return tt, w') ∧
        db w' = db_with_both c fd ad w.
Proof.
  rewrite set_channel_data_run. simpl. destruct (export_dir w); eauto.
Qed.

(** *** The four operations, once the channel's dicts are known *)

Lemma get_value_run b c key w fd ad w1 :
  get_channel_data b c w = (Return (fd, ad), w1) →
  get_value b c key w = (Return (fd !! lower (resolve_alias ad key)), w1).
Proof. intros H. unfold get_value, bind. by rewrite H. Qed.

Lemma add_facts_run b c key verb add also w fd ad w1 :
  get_channel_data b c w = (Return (fd, ad), w1) →
  add_facts b c key verb add also w =
    let key' := resolve_alias ad key in
    match fd !! lower key' with
    | Some f =>
        if also then
          set_channel_data b c (<[lower (name f) := f]> fd) ad
            (appended c fd f (strip <$> add) w1)
        else (Raise (FactError (AlreadyDefined (name f))), w1)
    | None =>
        set_channel_data b c
          (<[lower key' := Fact key' verb (length (heap w1))]> fd) ad
          (created c fd key' verb (strip <$> add) w1)
    end.
Proof.
  intros H. unfold add_facts, bind at 1. rewrite H. simpl.
  destruct (fd !! lower (resolve_alias ad key)) as [[n v l]|]; [destruct also|];
    reflexivity.
Qed.

Lemma set_alias_run b c key value w fd ad w1 :
  get_channel_data b c w = (Return (fd, ad), w1) →
  set_alias b c key value w =
    match ad !! lower key with
    | Some _ => (Raise (FactError (AlreadyAlias key)), w1)
    | None =>
    match fd !! lower key with
    | Some _ => (Raise (FactError (AlreadyHasFacts key)), w1)
    | None =>
    let value' := resolve_alias ad value in
    match fd !! lower value' with
    | None => (Raise (FactError (UnknownFact value')), w1)
    | Some _ =>
        set_channel_data b c fd (<[lower key := lower value']> ad)
          (aliased c ad (lower key) (lower value') w1)
    end end end.
Proof.
  intros H. unfold set_alias, bind at 1. rewrite H. simpl.
  destruct (ad !! lower key); [done|].
  destruct (fd !! lower key); [done|].
  destruct (fd !! lower (resolve_alias ad value)); reflexivity.
Qed.

Lemma get_channel_data_slots b c w fd ad w1 :
  get_channel_data b c w = (Return (fd, ad), w1) →
  facts_cache w1 !! c = Some fd ∧ aliases_cache w1 !! c = Some ad.
Proof.
  intros H. destruct (get_channel_data_run b c w)
    as (fd' & ad' & w1' & hs & H' & Hf & Ha & _).
  rewrite H in H'. injection H' as <- <- <-.
  by rewrite Hf, Ha, !lookup_insert_eq.
Qed.

Lemma lookup_delete_each ks (ad : gmap string string) i :
  delete_each ks ad !! i = if decide (i ∈ ks) then None else ad !! i.
Proof.
  unfold delete_each. revert ad.
  induction ks as [|k ks IH]; intros ad; cbn [foldl].
  - case_decide as Hi; [by apply elem_of_nil in Hi|done].
  - rewrite IH. destruct (decide (i = k)) as [->|Hne].
    + rewrite lookup_delete_eq, (decide_True (P := k ∈ k :: ks)) by left.
      by destruct (decide (k ∈ ks)).
    + rewrite lookup_delete_ne by done.
      destruct (decide (i ∈ ks)) as [Hin|Hin].
      * by rewrite decide_True by (by right).
      * rewrite decide_False; [done|]. by intros [?|?]%elem_of_cons.
Qed.

Lemma elem_of_pointing_to (ad : gmap string string) t a :
  a ∈ pointing_to ad t ↔ ad !! a = Some t.
Proof.
  unfold pointing_to. rewrite list_elem_of_fmap. split.
  - intros ([a' t'] & -> & Hin). apply list_elem_of_filter in Hin as [Ht Hin].
    simpl in *. subst. by apply elem_of_map_to_list in Hin.
  - intros Ha. exists (a, t). split; [done|].
    apply list_elem_of_filter. split; [done|]. by apply elem_of_map_to_list.
Qed.

(** The loop removes exactly the aliases whose target is [t]. *)
Lemma delete_each_pointing_to (ad : gmap string string) t :
  delete_each (pointing_to ad t) ad = filter (λ kv, kv.2 ≠ t) ad.
Proof.
  apply map_eq. intros a. rewrite lookup_delete_each.
  apply option_eq. intros t'. rewrite map_lookup_filter_Some. simpl.
  case_decide as Hin.
  - apply elem_of_pointing_to in Hin. split; [done|]. intros [? ?]. congruence.
  - rewrite elem_of_pointing_to in Hin. split; [|tauto].
    intros Ha. split; [done|]. congruence.
Qed.

Lemma del_aliases_run c ks ad w :
  aliases_cache w !! c = Some ad →
  del_aliases c ad ks w =
    (Return (delete_each ks ad),
     set_aliases_cache (<[c := delete_each ks ad]> (aliases_cache w)) w).
Proof.
  revert ad w. induction ks as [|k ks IH]; intros ad w Hc; simpl.
  - unfold ret, set_aliases_cache, delete_each. simpl.
    by rewrite insert_id, world_eta.
  - unfold bind, aliases_delitem. run. rewrite IH; simpl.
    + unfold set_aliases_cache, delete_each. simpl. by rewrite insert_insert_eq.
    + by rewrite lookup_insert_eq.
Qed.

Lemma delete_value_run b c key w fd ad w1 :
  get_channel_data b c w = (Return (fd, ad), w1) →
  delete_value b c key w =
    match fd !! lower key with
    | Some _ =>
        set_channel_data b c (delete (lower key) fd)
          (filter (λ kv, kv.2 ≠ lower key) ad)
          (fact_forgotten c fd ad (lower key) w1)
    | None =>
        match ad !! lower key with
        | Some _ =>
            set_channel_data b c fd (delete (lower key) ad)
              (alias_forgotten c ad (lower key) w1)
        | None => (Raise (FactError (UnknownKey key)), w1)
        end
    end.
Proof.
  intros H. destruct (get_channel_data_slots _ _ _ _ _ _ H) as [_ Ha].
  unfold delete_value, bind at 1. rewrite H. simpl.
  destruct (fd !! lower key).
  - unfold bind at 1. unfold bind at 1. unfold facts_delitem. run.
    rewrite del_aliases_run by done. simpl.
    by rewrite delete_each_pointing_to.
  - destruct (ad !! lower key); reflexivity.
Qed.

(** ** Teaching a new key, then looking it up *)

Lemma strip_x : strip <$> ["x"] = ["x"].
Proof. reflexivity. Qed.

(** What [add_facts] leaves in memory when the key names neither an alias
    nor a fact, whatever becomes of the writes that follow: a new fact under
    the case-folded key, named as the caller wrote the key, with a new list
    object holding the stripped batch. *)
Lemma add_facts_creates b c k v add also w fd ad w1 r w2 :
  get_channel_data b c w = (Return (fd, ad), w1) →
  fd !! lower k = None → ad !! lower k = None →
  add_facts b c k v add also w = (r, w2) →
  facts_cache w2 !! c = Some (<[lower k := Fact k v (length (heap w1))]> fd) ∧
  aliases_cache w2 !! c = Some ad ∧
  heap w2 = heap w1 ++ [strip <$> add] ∧
  (∀ m, r ≠ Raise (FactError m)).
Proof.
  intros Hg Hf Ha. rewrite (add_facts_run _ _ _ _ _ _ _ _ _ _ Hg).
  unfold resolve_alias. rewrite Ha. simpl. rewrite Hf.
  intros (Hfc & Hac & Hh & _ & Hr)%set_channel_data_frame.
  destruct (get_channel_data_slots _ _ _ _ _ _ Hg) as [_ Hsa].
  rewrite Hfc, Hac, Hh. simpl. by rewrite lookup_insert_eq.
Qed.

(** C1. When [k], case-folded, is neither an alias nor the key of a fact in
    the channel, and [add_facts] with verb "is", the batch ["x"] and no
    "also" succeeds, a lookup of [k] gives [(k, "is", ["x"])]: the fact is
    named by the key as it was written, has the given verb, and has the
    given batch as its values. *)
Theorem add_facts_then_lookup b b' c k w fd ad w1 w2 :
  get_channel_data b c w = (Return (fd, ad), w1) →
  fd !! lower k = None → ad !! lower k = None →
  add_facts b c k "is" ["x"] false w = (Return tt, w2) →
  lookup b' c k w2 = Some (k, "is", ["x"]).
Proof.
  intros Hg Hf Ha Hadd.
  destruct (add_facts_creates _ _ _ _ _ _ _ _ _ _ _ _ Hg Hf Ha Hadd)
    as (Hfc & Hac & Hh & _).
  unfold lookup.
  rewrite (get_value_run b' c k w2 _ _ w2 (get_channel_data_cached _ _ _ _ _ Hfc Hac)).
  unfold resolve_alias. rewrite Ha, lookup_insert_eq.
  unfold encode_fact, contents. simpl. rewrite Hh, strip_x.
  by rewrite lookup_app_r, Nat.sub_diag by done.
Qed.

Lemma add_facts_then_lookup_witness :
  lookup reliable "#chan" "Bar"
    (add_facts reliable "#chan" "Bar" "is" ["x"] false sample_world).2
  = Some ("Bar", "is", ["x"]).
Proof.
  apply (add_facts_then_lookup reliable reliable "#chan" "Bar" sample_world
           {[ "foo" := Fact "Foo" "is" 0 ]} {[ "foobar" := "foo" ]}
           (get_channel_data reliable "#chan" sample_world).2);
    vm_compute; reflexivity.
Defined.

(** ** Teaching more about a known key *)

(** What [add_facts] with "also" leaves in memory when the resolved key
    names a fact: the fact's list object has grown by the stripped batch,
    and the fact's tuple is stored again under its own name, case-folded. *)
Lemma add_facts_extends b c k v add w fd ad w1 f old r w2 :
  get_channel_data b c w = (Return (fd, ad), w1) →
  fd !! lower (resolve_alias ad k) = Some f →
  heap w1 !! values f = Some old →
  add_facts b c k v add true w = (r, w2) →
  facts_cache w2 !! c = Some (<[lower (name f) := f]> fd) ∧
  aliases_cache w2 !! c = Some ad ∧
  heap w2 = alter (λ vs, vs ++ (strip <$> add)) (values f) (heap w1) ∧
  heap w2 !! values f = Some (old ++ (strip <$> add)) ∧
  (∀ m, r ≠ Raise (FactError m)).
Proof.
  intros Hg Hf Hold. rewrite (add_facts_run _ _ _ _ _ _ _ _ _ _ Hg).
  simpl. rewrite Hf.
  intros (Hfc & Hac & Hh & _ & Hr)%set_channel_data_frame.
  destruct (get_channel_data_slots _ _ _ _ _ _ Hg) as [_ Hsa].
  rewrite Hfc, Hac, Hh. unfold appended. simpl. rewrite lookup_insert_eq.
  repeat split; try done.
  rewrite list_lookup_alter, decide_True by done. by rewrite Hold.
Qed.

(** A fact found under a key is still found there when its tuple is stored
    again under its own name. *)
Lemma lookup_restored (fd : gmap string fact) k f :
  fd !! k = Some f → <[lower (name f) := f]> fd !! k = Some f.
Proof.
  intros Hf. destruct (decide (lower (name f) = k)) as [->|Hne].
  - by rewrite lookup_insert_eq.
  - by rewrite lookup_insert_ne.
Qed.

(** C2, counterexample. #chan knows "Foo" with one value; teaching it also
    the batch [" y "] succeeds, and the second value is then "y", not the
    " y " of the batch. *)
Lemma add_facts_also_strips_batch :
  lookup reliable "#chan" "foo" sample_world
    = Some ("Foo", "is", ["a common placeholder"]) ∧
  (add_facts reliable "#chan" "foo" "are" [" y "] true sample_world).1 = Return tt ∧
  lookup reliable "#chan" "foo"
    (add_facts reliable "#chan" "foo" "are" [" y "] true sample_world).2
    = Some ("Foo", "is", ["a common placeholder"; "y"]) ∧
  lookup reliable "#chan" "foo"
    (add_facts reliable "#chan" "foo" "are" [" y "] true sample_world).2
    ≠ Some ("Foo", "is", ["a common placeholder"] ++ [" y "]).
Proof. vm_compute. repeat split; discriminate. Qed.

(** C2, amended. When the key, resolved through the aliases, names a fact,
    [add_facts] with "also" appends the batch, each entry stripped of
    surrounding whitespace, to the fact's values and keeps their order; the
    fact keeps its name and its verb, whatever verb and casing the call
    gives. *)
Theorem add_facts_also_appends b b' c k v' add w fd ad w1 f old w2 :
  get_channel_data b c w = (Return (fd, ad), w1) →
  fd !! lower (resolve_alias ad k) = Some f →
  heap w1 !! values f = Some old →
  add_facts b c k v' add true w = (Return tt, w2) →
  lookup b' c k w = Some (name f, verb f, old) ∧
  lookup b' c k w2 = Some (name f, verb f, old ++ (strip <$> add)).
Proof.
  intros Hg Hf Hold Hadd. split.
  - unfold lookup. rewrite (get_value_run b' c k w fd ad w1 Hg), Hf.
    unfold encode_fact, contents. by rewrite Hold.
  - destruct (add_facts_extends _ _ _ _ _ _ _ _ _ _ _ _ _ Hg Hf Hold Hadd)
      as (Hfc & Hac & _ & Hh & _).
    unfold lookup.
    rewrite (get_value_run b' c k w2 _ _ w2
               (get_channel_data_cached _ _ _ _ _ Hfc Hac)).
    rewrite (lookup_restored _ _ _ Hf).
    unfold encode_fact, contents. by rewrite Hh.
Qed.

Lemma add_facts_also_appends_witness :
  lookup reliable "#chan" "FooBar" sample_world
    = Some ("Foo", "is", ["a common placeholder"]) ∧
  lookup reliable "#chan" "FooBar"
    (add_facts reliable "#chan" "FooBar" "are" [" y "; "z"] true sample_world).2
    = Some ("Foo", "is", ["a common placeholder"; "y"; "z"]).
Proof.
  apply (add_facts_also_appends reliable reliable "#chan" "FooBar" "are"
           [" y "; "z"] sample_world
           {[ "foo" := Fact "Foo" "is" 0 ]} {[ "foobar" := "foo" ]}
           (get_channel_data reliable "#chan" sample_world).2
           (Fact "Foo" "is" 0) ["a common placeholder"]);
    vm_compute; reflexivity.
Defined.

(** ** When persisting succeeds *)

Lemma set_channel_data_outcome b c fd ad w r w' :
  set_channel_data b c fd ad w = (r, w') →
  (r = Return tt ↔ persists b w = true).
Proof.
  rewrite set_channel_data_run. unfold persists.
  destruct b as [[] [] []]; simpl; destruct (export_dir w); simpl;
    intros [= <- <-]; done.
Qed.

Lemma get_channel_data_export_dir b c w fd ad w1 :
  get_channel_data b c w = (Return (fd, ad), w1) → export_dir w1 = export_dir w.
Proof.
  intros H. destruct (get_channel_data_run b c w)
    as (fd' & ad' & w1' & hs & H' & _ & _ & _ & _ & He & _).
  rewrite H in H'. by injection H' as <- <- <-.
Qed.

(** ** Deleting *)

(** C3. [delete_value], by what the case-folded key names. A fact: the fact
    is removed, and with it every alias entry whose target is that key, and
    no other. An alias: that entry alone is removed, and the facts, among
    them its target, stay as they are. Neither: a [FactError] saying the key
    is not known, with both dicts as they were. In the first two cases no
    [FactError] is raised, and the call returns when persisting succeeds. *)
Theorem delete_value_cases b c key w fd ad w1 r w2 :
  get_channel_data b c w = (Return (fd, ad), w1) →
  delete_value b c key w = (r, w2) →
  ∃ fd' ad',
    facts_cache w2 !! c = Some fd' ∧ aliases_cache w2 !! c = Some ad' ∧
    (is_Some (fd !! lower key) →
       fd' = delete (lower key) fd ∧
       (∀ a t, ad' !! a = Some t ↔ ad !! a = Some t ∧ t ≠ lower key) ∧
       (∀ m, r ≠ Raise (FactError m)) ∧
       (persists b w = true → r = Return tt)) ∧
    (fd !! lower key = None → is_Some (ad !! lower key) →
       fd' = fd ∧ ad' = delete (lower key) ad ∧
       (∀ m, r ≠ Raise (FactError m)) ∧
       (persists b w = true → r = Return tt)) ∧
    (fd !! lower key = None → ad !! lower key = None →
       fd' = fd ∧ ad' = ad ∧ r = Raise (FactError (UnknownKey key))).
Proof.
  intros Hg. rewrite (delete_value_run _ _ _ _ _ _ _ Hg).
  destruct (get_channel_data_slots _ _ _ _ _ _ Hg) as [Hsf Hsa].
  pose proof (get_channel_data_export_dir _ _ _ _ _ _ Hg) as He.
  destruct (fd !! lower key) as [f|] eqn:Hf;
    [|destruct (ad !! lower key) as [t|] eqn:Ha].
  - intros Hs. pose proof Hs as (Hfc & Hac & _ & _ & Hr)%set_channel_data_frame.
    apply set_channel_data_outcome in Hs.
    exists (delete (lower key) fd), (filter (λ kv, kv.2 ≠ lower key) ad).
    rewrite Hfc, Hac. unfold fact_forgotten. simpl. rewrite !lookup_insert_eq.
    split; [done|]. split; [done|].
    split; [intros _|split; [intros [=]|intros [=]]].
    split; [done|]. split; [intros a t; apply map_lookup_filter_Some|].
    split; [done|]. intros Hp. apply Hs. unfold persists in *. simpl.
    by rewrite He.
  - intros Hs. pose proof Hs as (Hfc & Hac & _ & _ & Hr)%set_channel_data_frame.
    apply set_channel_data_outcome in Hs.
    exists fd, (delete (lower key) ad).
    rewrite Hfc, Hac. unfold alias_forgotten. simpl. rewrite lookup_insert_eq.
    split; [done|]. split; [done|].
    split; [intros [? [=]]|split; [intros _ _|intros _ [=]]].
    split; [done|]. split; [done|]. split; [done|].
    intros Hp. apply Hs. unfold persists in *. simpl. by rewrite He.
  - intros [= <- <-]. exists fd, ad.
    split; [done|]. split; [done|].
    split; [intros [? [=]]|split; [intros _ [? [=]]|done]].
Qed.

Lemma delete_value_cases_witness :
  ∃ fd' ad',
    facts_cache (delete_value reliable "#chan" "FOO" sample_world).2 !! "#chan"
      = Some fd' ∧
    aliases_cache (delete_value reliable "#chan" "FOO" sample_world).2 !! "#chan"
      = Some ad' ∧
    fd' = delete "foo" {[ "foo" := Fact "Foo" "is" 0 ]} ∧
    (∀ a t, ad' !! a = Some t ↔
            ({[ "foobar" := "foo" ]} : gmap string string) !! a = Some t ∧ t ≠ "foo") ∧
    (delete_value reliable "#chan" "FOO" sample_world).1 = Return tt.
Proof.
  destruct (delete_value_cases reliable "#chan" "FOO" sample_world
              {[ "foo" := Fact "Foo" "is" 0 ]} {[ "foobar" := "foo" ]}
              (get_channel_data reliable "#chan" sample_world).2
              (delete_value reliable "#chan" "FOO" sample_world).1
              (delete_value reliable "#chan" "FOO" sample_world).2)
    as (fd' & ad' & Hf & Ha & Hfact & _).
  - vm_compute. reflexivity.
  - vm_compute. reflexivity.
  - destruct Hfact as (-> & Hal & _ & Hr).
    + exists (Fact "Foo" "is" 0). vm_compute. reflexivity.
    + eexists _, _. split; [exact Hf|]. split; [exact Ha|].
      split; [reflexivity|]. split; [exact Hal|]. apply Hr. reflexivity.
Defined.

(** ** Aliasing *)

(** Settles an equivalence between an outcome and the lookups that decide
    it, once both are known. *)
Ltac decide_case :=
  split; intros; destruct_and?; simplify_eq;
  repeat match goal with
         | H : is_Some None |- _ => destruct H as [? [=]]
         | H : ∀ m, Raise (FactError ?x) ≠ Raise (FactError m) |- _ =>
             by destruct (H x)
         end;
  simplify_eq; eauto.

(** C5. The checks of [set_alias] in their order. The alias key is
    case-folded: if it is in the aliases dict, the call raises that it is
    already an alias; otherwise, if it names a fact, that it already has
    facts; otherwise the target is resolved through the aliases dict and, if
    the result names no fact, the call raises that the target is not
    defined. Each of these errors is raised in exactly that case. When none
    applies the alias is stored, no [FactError] is raised, and the call
    returns when persisting succeeds. *)
Theorem set_alias_outcome b c key value w fd ad w1 r w2 :
  get_channel_data b c w = (Return (fd, ad), w1) →
  set_alias b c key value w = (r, w2) →
  (r = Raise (FactError (AlreadyAlias key)) ↔ is_Some (ad !! lower key)) ∧
  (r = Raise (FactError (AlreadyHasFacts key)) ↔
     ad !! lower key = None ∧ is_Some (fd !! lower key)) ∧
  (r = Raise (FactError (UnknownFact (resolve_alias ad value))) ↔
     ad !! lower key = None ∧ fd !! lower key = None ∧
     fd !! lower (resolve_alias ad value) = None) ∧
  ((∀ m, r ≠ Raise (FactError m)) ↔
     ad !! lower key = None ∧ fd !! lower key = None ∧
     is_Some (fd !! lower (resolve_alias ad value))) ∧
  (ad !! lower key = None → fd !! lower key = None →
   is_Some (fd !! lower (resolve_alias ad value)) →
     aliases_cache w2 !! c
       = Some (<[lower key := lower (resolve_alias ad value)]> ad) ∧
     facts_cache w2 !! c = Some fd ∧
     (persists b w = true → r = Return tt)).
Proof.
  intros Hg. rewrite (set_alias_run _ _ _ _ _ _ _ _ Hg).
  destruct (get_channel_data_slots _ _ _ _ _ _ Hg) as [Hsf Hsa].
  pose proof (get_channel_data_export_dir _ _ _ _ _ _ Hg) as He.
  destruct (ad !! lower key) as [t|] eqn:Ha.
  { intros [= <- <-]. split_and!; [decide_case..|intros [=]]. }
  destruct (fd !! lower key) as [f|] eqn:Hf.
  { intros [= <- <-]. split_and!; [decide_case..|intros _ [=]]. }
  simpl. destruct (fd !! lower (resolve_alias ad value)) as [f|] eqn:Ht.
  - intros Hs. pose proof Hs as (Hfc & Hac & _ & _ & Hr)%set_channel_data_frame.
    apply set_channel_data_outcome in Hs.
    split_and!; [decide_case..|].
    intros _ _ _. rewrite Hfc, Hac. unfold aliased. simpl.
    rewrite lookup_insert_eq. split_and!; [done..|].
    intros Hp. apply Hs. unfold persists in *. simpl. by rewrite He.
  - intros [= <- <-]. split_and!; [decide_case..|intros _ _ [? [=]]].
Qed.

Lemma set_alias_outcome_witness :
  aliases_cache (set_alias reliable "#chan" "Fubar" "FOOBAR" sample_world).2 !! "#chan"
    = Some (<["fubar" := "foo"]> {[ "foobar" := "foo" ]}) ∧
  (set_alias reliable "#chan" "Fubar" "FOOBAR" sample_world).1 = Return tt.
Proof.
  destruct (set_alias_outcome reliable "#chan" "Fubar" "FOOBAR" sample_world
              {[ "foo" := Fact "Foo" "is" 0 ]} {[ "foobar" := "foo" ]}
              (get_channel_data reliable "#chan" sample_world).2
              (set_alias reliable "#chan" "Fubar" "FOOBAR" sample_world).1
              (set_alias reliable "#chan" "Fubar" "FOOBAR" sample_world).2)
    as (_ & _ & _ & _ & Hok).
  - vm_compute. reflexivity.
  - vm_compute. reflexivity.
  - destruct Hok as (Ha & _ & Hr).
    + reflexivity.
    + reflexivity.
    + exists (Fact "Foo" "is" 0). vm_compute. reflexivity.
    + split; [exact Ha|]. apply Hr. reflexivity.
Defined.

(** ** Errors that are raised before anything is changed *)

(** A call that raises a [FactError] has done nothing but fetch the
    channel's data. *)
Lemma fact_error_world b c op w m w' fd ad w1 :
  get_channel_data b c w = (Return (fd, ad), w1) →
  perform b c op w = (Raise (FactError m), w') → w' = w1.
Proof.
  intros Hg. destruct op as [key verb add also|key value|key]; simpl.
  - rewrite (add_facts_run _ _ _ _ _ _ _ _ _ _ Hg). simpl.
    destruct (fd !! lower (resolve_alias ad key)); [destruct also|].
    + intros (_ & _ & _ & _ & Hr)%set_channel_data_frame. by destruct (Hr m).
    + by intros [= _ <-].
    + intros (_ & _ & _ & _ & Hr)%set_channel_data_frame. by destruct (Hr m).
  - rewrite (set_alias_run _ _ _ _ _ _ _ _ Hg).
    destruct (ad !! lower key); [by intros [= _ <-]|].
    destruct (fd !! lower key); [by intros [= _ <-]|].
    simpl. destruct (fd !! lower (resolve_alias ad value)); [|by intros [= _ <-]].
    intros (_ & _ & _ & _ & Hr)%set_channel_data_frame. by destruct (Hr m).
  - rewrite (delete_value_run _ _ _ _ _ _ _ Hg).
    destruct (fd !! lower key).
    + intros (_ & _ & _ & _ & Hr)%set_channel_data_frame. by destruct (Hr m).
    + destruct (ad !! lower key); [|by intros [= _ <-]].
      intros (_ & _ & _ & _ & Hr)%set_channel_data_frame. by destruct (Hr m).
Qed.

(** Fetching a channel's data changes nothing that can be observed of it. *)
Lemma fetched_same b c w fd ad w1 :
  get_channel_data b c w = (Return (fd, ad), w1) →
  channel_state b c w1 = channel_state b c w ∧
  db w1 = db w ∧ files w1 = files w ∧
  (∀ b' key, lookup b' c key w1 = lookup b' c key w).
Proof.
  intros Hg. split_and!.
  - unfold channel_state.
    by rewrite (get_channel_data_again _ b _ _ _ _ _ Hg), Hg.
  - destruct (get_channel_data_run b c w)
      as (fd' & ad' & w1' & hs & H' & _ & _ & _ & Hd & _ & _).
    rewrite Hg in H'. by injection H' as <- <- <-.
  - destruct (get_channel_data_run b c w)
      as (fd' & ad' & w1' & hs & H' & _ & _ & _ & _ & _ & Hfs).
    rewrite Hg in H'. by injection H' as <- <- <-.
  - intros b' key. unfold lookup.
    rewrite (get_value_run b' c key w1 fd ad w1
               (get_channel_data_again _ b' _ _ _ _ _ Hg)).
    assert (get_channel_data b' c w = (Return (fd, ad), w1)) as Hg' by exact Hg.
    by rewrite (get_value_run b' c key w fd ad w1 Hg').
Qed.

(** C6. A call that raises a [FactError] - already defined, already an
    alias, already has facts, not defined yet, not known - leaves the facts
    and the aliases of the channel, the database and the exported files as
    they were, and every lookup answers as before. In particular
    [add_facts] without "also" on a key whose lookup finds a fact raises
    that the fact is already defined, and leaves all of these unchanged. *)
Theorem fact_error_changes_nothing b c w :
  (∀ op m w',
     perform b c op w = (Raise (FactError m), w') →
     channel_state b c w' = channel_state b c w ∧
     db w' = db w ∧ files w' = files w ∧
     (∀ b' key, lookup b' c key w' = lookup b' c key w)) ∧
  (∀ key verb add n v vs,
     lookup b c key w = Some (n, v, vs) →
     ∃ w',
       add_facts b c key verb add false w
         = (Raise (FactError (AlreadyDefined n)), w') ∧
       channel_state b c w' = channel_state b c w ∧
       db w' = db w ∧ files w' = files w ∧
       (∀ b' key', lookup b' c key' w' = lookup b' c key' w)).
Proof.
  destruct (get_channel_data_run b c w) as (fd & ad & w1 & hs & Hg & _).
  split.
  - intros op m w' Hop.
    rewrite (fact_error_world _ _ _ _ _ _ _ _ _ Hg Hop).
    exact (fetched_same _ _ _ _ _ _ Hg).
  - intros key verb add n v vs. unfold lookup.
    rewrite (get_value_run _ _ _ _ _ _ _ Hg).
    destruct (fd !! lower (resolve_alias ad key)) as [f|] eqn:Hf; [|done].
    intros [= <- _ _]. exists w1. split; [|exact (fetched_same _ _ _ _ _ _ Hg)].
    rewrite (add_facts_run _ _ _ _ _ _ _ _ _ _ Hg). simpl. by rewrite Hf.
Qed.

Lemma fact_error_changes_nothing_witness :
  ∃ w',
    add_facts reliable "#chan" "FooBar" "are" ["else"] false sample_world
      = (Raise (FactError (AlreadyDefined "Foo")), w') ∧
    channel_state reliable "#chan" w' = channel_state reliable "#chan" sample_world ∧
    db w' = db sample_world ∧ files w' = files sample_world ∧
    (∀ b' key', lookup b' "#chan" key' w' = lookup b' "#chan" key' sample_world).
Proof.
  apply (proj2 (fact_error_changes_nothing reliable "#chan" sample_world)
           "FooBar" "are" ["else"] "Foo" "is" ["a common placeholder"]).
  vm_compute. reflexivity.
Defined.

(** ** A failing export *)

(** C7, counterexample. With an export directory configured, teaching #chan
    a new key while the export file cannot be written: both dicts reach the
    database, and the call raises the [IOError] of the export instead of
    returning. *)
Lemma export_failure_is_raised :
  export_dir sample_world = Some "/srv/export" ∧
  (add_facts reliable "#chan" "Bar" "is" ["x"] false sample_world).1 = Return tt ∧
  (add_facts export_failing "#chan" "Bar" "is" ["x"] false sample_world).1
    = Raise IOError ∧
  db (add_facts export_failing "#chan" "Bar" "is" ["x"] false sample_world).2
    = Database
        {[ "#chan" := {[ "foo" := ("Foo", "is", ["a common placeholder"]);
                         "bar" := ("Bar", "is", ["x"]) ]} ]}
        {[ "#chan" := {[ "foobar" := "foo" ]} ]}.
Proof. vm_compute. repeat split. Qed.

Lemma set_channel_data_export_fails b c fd ad w d :
  export_dir w = Some d →
  set_facts_ok b = true → set_aliases_ok b = true → export_ok b = false →
  set_channel_data b c fd ad w
    = (Raise IOError, set_db (db_with_both c fd ad w) w) ∧
  set_channel_data reliable c fd ad w
    = (Return tt,
       set_files (<[path_join d (c +:+ ".json") :=
                    ExportDoc (encode_facts (heap w) fd) ad]> (files w))
         (set_db (db_with_both c fd ad w) w)).
Proof.
  intros He Hf Ha Hx. rewrite !set_channel_data_run, Hf, Ha, Hx, He. done.
Qed.

Lemma set_channel_data_only_export_missing b c fd ad w2 w d r w' r0 w0 :
  export_dir w2 = Some d → files w2 = files w →
  set_facts_ok b = true → set_aliases_ok b = true → export_ok b = false →
  set_channel_data b c fd ad w2 = (r, w') →
  set_channel_data reliable c fd ad w2 = (r0, w0) →
  only_export_missing r w' r0 w0 w.
Proof.
  intros He Hfs Hf Ha Hx.
  destruct (set_channel_data_export_fails b c fd ad w2 d He Hf Ha Hx)
    as [-> ->].
  intros [= <- <-] [= <- <-]. simpl. by rewrite Hfs.
Qed.

(** C7, amended. With an export directory configured and a bot whose two
    database writes succeed and whose export write fails, the failure is
    not caught: a call that would have returned raises the [IOError] of the
    export. The database and the memory are then as after the successful
    call, nothing is rolled back, and only the export file is not written.
    A call that would have raised raises the same and leaves the same. *)
Theorem export_failure_propagates b c op w d r w' r0 w0 :
  export_dir w = Some d →
  set_facts_ok b = true → set_aliases_ok b = true → export_ok b = false →
  perform b c op w = (r, w') →
  perform reliable c op w = (r0, w0) →
  only_export_missing r w' r0 w0 w.
Proof.
  intros He Hf Ha Hx.
  destruct (get_channel_data_run b c w)
    as (fd & ad & w1 & hs & Hg & _ & _ & _ & _ & He1 & Hfs1).
  assert (get_channel_data reliable c w = (Return (fd, ad), w1)) as Hg'
    by exact Hg.
  rewrite He in He1.
  destruct op as [key verb add also|key value|key]; simpl.
  - rewrite (add_facts_run _ _ _ _ _ _ _ _ _ _ Hg),
      (add_facts_run _ _ _ _ _ _ _ _ _ _ Hg'). simpl.
    destruct (fd !! lower (resolve_alias ad key)); [destruct also|].
    + by apply set_channel_data_only_export_missing with (d := d).
    + by intros [= <- <-] [= <- <-].
    + by apply set_channel_data_only_export_missing with (d := d).
  - rewrite (set_alias_run _ _ _ _ _ _ _ _ Hg), (set_alias_run _ _ _ _ _ _ _ _ Hg').
    destruct (ad !! lower key); [by intros [= <- <-] [= <- <-]|].
    destruct (fd !! lower key); [by intros [= <- <-] [= <- <-]|].
    simpl. destruct (fd !! lower (resolve_alias ad value));
      [|by intros [= <- <-] [= <- <-]].
    by apply set_channel_data_only_export_missing with (d := d).
  - rewrite (delete_value_run _ _ _ _ _ _ _ Hg), (delete_value_run _ _ _ _ _ _ _ Hg').
    destruct (fd !! lower key).
    + by apply set_channel_data_only_export_missing with (d := d).
    + destruct (ad !! lower key); [|by intros [= <- <-] [= <- <-]].
      by apply set_channel_data_only_export_missing with (d := d).
Qed.

Lemma export_failure_propagates_witness :
  only_export_missing
    (add_facts export_failing "#chan" "Bar" "is" ["x"] false sample_world).1
    (add_facts export_failing "#chan" "Bar" "is" ["x"] false sample_world).2
    (add_facts reliable "#chan" "Bar" "is" ["x"] false sample_world).1
    (add_facts reliable "#chan" "Bar" "is" ["x"] false sample_world).2
    sample_world.
Proof.
  apply (export_failure_propagates export_failing "#chan"
           (AddFacts "Bar" "is" ["x"] false) sample_world "/srv/export");
    vm_compute; reflexivity.
Defined.

(** ** Which functions resolve the key through the aliases *)

(** C9, counterexample. In #chan "foobar" is an alias for the fact "foo".
    Deleting "FooBar" does not go to the fact the alias resolves to: the fact
    is still there afterwards, and only the alias is gone. *)
Lemma delete_value_does_not_resolve :
  resolve_alias {[ "foobar" := "foo" ]} "FooBar" = "foo" ∧
  (delete_value reliable "#chan" "FooBar" sample_world).1 = Return tt ∧
  lookup reliable "#chan" "foo"
    (delete_value reliable "#chan" "FooBar" sample_world).2
    = Some ("Foo", "is", ["a common placeholder"]) ∧
  lookup reliable "#chan" "foobar"
    (delete_value reliable "#chan" "FooBar" sample_world).2 = None.
Proof. vm_compute. repeat split. Qed.

(** C9, amended. [get_value] and [add_facts] case-fold the key, take one step
    through the aliases dict if the key is in it, and only then go to the
    facts dict: the fact they read, find already defined, extend or create
    is the one under the resolved key. [delete_value] does not resolve: it
    looks the case-folded key up in the facts dict as it is, and for a key
    that is an alias and no fact it removes the alias entry and leaves the
    facts, among them the alias's target, alone. *)
Theorem resolution_in_get_and_add_only b c key w fd ad w1 :
  get_channel_data b c w = (Return (fd, ad), w1) →
  get_value b c key w = (Return (fd !! lower (resolve_alias ad key)), w1) ∧
  (∀ verb add also r w2,
     add_facts b c key verb add also w = (r, w2) →
     match fd !! lower (resolve_alias ad key) with
     | Some f =>
         if also then
           facts_cache w2 !! c = Some (<[lower (name f) := f]> fd) ∧
           heap w2 = alter (λ vs, vs ++ (strip <$> add)) (values f) (heap w1)
         else r = Raise (FactError (AlreadyDefined (name f))) ∧ w2 = w1
     | None =>
         facts_cache w2 !! c
           = Some (<[lower (resolve_alias ad key) :=
                     Fact (resolve_alias ad key) verb (length (heap w1))]> fd) ∧
         heap w2 = heap w1 ++ [strip <$> add]
     end) ∧
  (∀ t r w2,
     ad !! lower key = Some t → fd !! lower key = None →
     delete_value b c key w = (r, w2) →
     facts_cache w2 !! c = Some fd ∧
     aliases_cache w2 !! c = Some (delete (lower key) ad)).
Proof.
  intros Hg. split_and!.
  - exact (get_value_run _ _ _ _ _ _ _ Hg).
  - intros verb add also r w2. rewrite (add_facts_run _ _ _ _ _ _ _ _ _ _ Hg).
    simpl. destruct (fd !! lower (resolve_alias ad key)) as [f|]; [destruct also|].
    + intros (Hfc & _ & Hh & _)%set_channel_data_frame.
      rewrite Hfc, Hh. unfold appended. simpl. by rewrite lookup_insert_eq.
    + by intros [= <- <-].
    + intros (Hfc & _ & Hh & _)%set_channel_data_frame.
      rewrite Hfc, Hh. unfold created. simpl. by rewrite lookup_insert_eq.
  - intros t r w2 Ha Hf. rewrite (delete_value_run _ _ _ _ _ _ _ Hg), Hf, Ha.
    destruct (get_channel_data_slots _ _ _ _ _ _ Hg) as [Hsf _].
    intros (Hfc & Hac & _)%set_channel_data_frame.
    rewrite Hfc, Hac. unfold alias_forgotten. simpl.
    by rewrite lookup_insert_eq.
Qed.

Lemma resolution_in_get_and_add_only_witness :
  get_value reliable "#chan" "FooBar" sample_world
    = (Return (({[ "foo" := Fact "Foo" "is" 0 ]} : gmap string fact)
                 !! lower (resolve_alias {[ "foobar" := "foo" ]} "FooBar")),
       (get_channel_data reliable "#chan" sample_world).2).
Proof.
  apply (resolution_in_get_and_add_only reliable "#chan" "FooBar" sample_world
           {[ "foo" := Fact "Foo" "is" 0 ]} {[ "foobar" := "foo" ]}
           (get_channel_data reliable "#chan" sample_world).2).
  vm_compute. reflexivity.
Defined.

(** ** A failing database write after an append *)

(** C10. When [add_facts] with "also" finds the fact, it extends the fact's
    list object, the one the cached dict refers to, and only then calls
    [set_channel_data] on the world so changed. If a database write then
    fails, the call raises the database's error, and the extended list
    stays: the same object holds the old values followed by the new ones,
    and a lookup shows them. When it is the first write that fails the
    database is as it was. *)
Theorem add_facts_also_keeps_append b b' c k v add w fd ad w1 f old r w2 :
  get_channel_data b c w = (Return (fd, ad), w1) →
  fd !! lower (resolve_alias ad k) = Some f →
  heap w1 !! values f = Some old →
  set_facts_ok b && set_aliases_ok b = false →
  add_facts b c k v add true w = (r, w2) →
  add_facts b c k v add true w
    = set_channel_data b c (<[lower (name f) := f]> fd) ad
        (appended c fd f (strip <$> add) w1) ∧
  heap (appended c fd f (strip <$> add) w1) !! values f
    = Some (old ++ (strip <$> add)) ∧
  r = Raise DatabaseError ∧
  facts_cache w2 !! c = Some (<[lower (name f) := f]> fd) ∧
  heap w2 !! values f = Some (old ++ (strip <$> add)) ∧
  lookup b' c k w2 = Some (name f, verb f, old ++ (strip <$> add)) ∧
  (set_facts_ok b = false → db w2 = db w).
Proof.
  intros Hg Hf Hold Hb Hadd.
  destruct (add_facts_extends _ _ _ _ _ _ _ _ _ _ _ _ _ Hg Hf Hold Hadd)
    as (Hfc & Hac & Hh & Hh2 & _).
  assert (db w1 = db w) as Hdb.
  { destruct (get_channel_data_run b c w)
      as (fd' & ad' & w1' & hs & H' & _ & _ & _ & Hd & _).
    rewrite Hg in H'. by injection H' as <- <- <-. }
  revert Hadd. rewrite (add_facts_run _ _ _ _ _ _ _ _ _ _ Hg). simpl.
  rewrite Hf. intros Hs. split_and!; try done.
  - unfold appended. simpl.
    rewrite list_lookup_alter, decide_True by done. by rewrite Hold.
  - revert Hs. rewrite set_channel_data_run.
    destruct b as [[] [] ?]; simpl in *; try done; by intros [= <- _].
  - unfold lookup.
    rewrite (get_value_run b' c k w2 _ _ w2
               (get_channel_data_cached _ _ _ _ _ Hfc Hac)).
    rewrite (lookup_restored _ _ _ Hf).
    unfold encode_fact, contents. by rewrite Hh2.
  - intros Hff. revert Hs. rewrite set_channel_data_run, Hff.
    by intros [= _ <-].
Qed.

Lemma add_facts_also_keeps_append_witness :
  (add_facts db_failing "#chan" "foo" "is" ["more"] true sample_world).1
    = Raise DatabaseError ∧
  lookup reliable "#chan" "foo"
    (add_facts db_failing "#chan" "foo" "is" ["more"] true sample_world).2
    = Some ("Foo", "is", ["a common placeholder"; "more"]) ∧
  db (add_facts db_failing "#chan" "foo" "is" ["more"] true sample_world).2
    = sample_db.
Proof.
  destruct (add_facts_also_keeps_append db_failing reliable "#chan" "foo" "is"
              ["more"] sample_world
              {[ "foo" := Fact "Foo" "is" 0 ]} {[ "foobar" := "foo" ]}
              (get_channel_data reliable "#chan" sample_world).2
              (Fact "Foo" "is" 0) ["a common placeholder"]
              (add_facts db_failing "#chan" "foo" "is" ["more"] true sample_world).1
              (add_facts db_failing "#chan" "foo" "is" ["more"] true sample_world).2)
    as (_ & _ & Hr & _ & _ & Hl & Hd); try (vm_compute; reflexivity).
  split; [exact Hr|]. split; [exact Hl|]. apply Hd. reflexivity.
Defined.

(** ** What is read from the database *)

(** Decoding yields, for every stored key, a fact whose list object holds
    the stored values, and nothing else. *)
Lemma load_items_spec items w :
  ∃ fd hs,
    load_items items w = (Return fd, set_heap (heap w ++ hs) w) ∧
    ∀ k, match fd !! k with
         | Some f => (k, encode_fact (heap w ++ hs) f) ∈ items ∧
                     values f < length (heap w ++ hs)
         | None => k ∉ items.*1
         end.
Proof.
  induction items as [|[k0 [[n v] vs]] rest IH]; simpl.
  - exists ∅, []. split.
    + unfold ret, set_heap. by rewrite app_nil_r, world_eta.
    + intros k. rewrite lookup_empty. apply not_elem_of_nil.
  - destruct IH as (fd0 & hs0 & Hrun & IH).
    exists (<[k0 := Fact n v (length (heap w ++ hs0))]> fd0), (hs0 ++ [vs]).
    split.
    + unfold bind, load_fact, bind, alloc, ret. rewrite Hrun. simpl.
      unfold set_heap. simpl. by rewrite app_assoc.
    + intros k. rewrite app_assoc. destruct (decide (k = k0)) as [->|Hne].
      * rewrite lookup_insert_eq. unfold encode_fact, contents. simpl.
        rewrite lookup_app_r, Nat.sub_diag by lia. simpl. split; [left|].
        rewrite !length_app. simpl. lia.
      * rewrite lookup_insert_ne by done. specialize (IH k).
        destruct (fd0 !! k) as [f|].
        -- destruct IH as [Hin Hlt]. split.
           ++ right. unfold encode_fact, contents in *.
              by rewrite lookup_app_l.
           ++ rewrite !length_app in *. lia.
        -- intros [?|?]%elem_of_cons; done.
Qed.

Lemma load_facts_spec s w :
  ∃ fd hs,
    load_facts s w = (Return fd, set_heap (heap w ++ hs) w) ∧
    encode_facts (heap w ++ hs) fd = s ∧
    (∀ k f, fd !! k = Some f → values f < length (heap w ++ hs)).
Proof.
  destruct (load_items_spec (map_to_list s) w) as (fd & hs & Hrun & Hfd).
  exists fd, hs. split; [done|]. split.
  - apply map_eq. intros k. unfold encode_facts. rewrite lookup_fmap.
    specialize (Hfd k). destruct (fd !! k) as [f|]; simpl.
    + destruct Hfd as [Hin _]. by apply elem_of_map_to_list in Hin.
    + destruct (s !! k) as [sf|] eqn:Hs; [|done].
      destruct Hfd. apply list_elem_of_fmap. exists (k, sf).
      split; [done|]. by apply elem_of_map_to_list.
  - intros k f Hk. specialize (Hfd k). rewrite Hk in Hfd. by destruct Hfd.
Qed.

(** What [get_channel_data] returns, by what the cache held: the cached
    dict, or else a dict that encodes to what the database holds, on list
    objects that exist. The other channels are not touched. *)
Lemma get_channel_data_loaded b c w fd ad w1 :
  get_channel_data b c w = (Return (fd, ad), w1) →
  (∀ c', c' ≠ c →
     facts_cache w1 !! c' = facts_cache w !! c' ∧
     aliases_cache w1 !! c' = aliases_cache w !! c') ∧
  db w1 = db w ∧ (∃ hs, heap w1 = heap w ++ hs) ∧
  match facts_cache w !! c with
  | Some fd0 => fd = fd0
  | None =>
      encode_facts (heap w1) fd = default ∅ (factoids_facts (db w) !! c) ∧
      (∀ k f, fd !! k = Some f → values f < length (heap w1))
  end ∧
  match aliases_cache w !! c with
  | Some ad0 => ad = ad0
  | None => ad = default ∅ (factoids_aliases (db w) !! c)
  end.
Proof.
  intros Hg.
  destruct (get_channel_data_run b c w)
    as (fd' & ad' & w1' & hs & H' & Hfc & Hac & Hh & Hd & _).
  rewrite Hg in H'. injection H' as <- <- <-.
  split; [|split; [done|split; [by exists hs|]]].
  { intros c' Hne. by rewrite Hfc, Hac, !lookup_insert_ne. }
  clear Hfc Hac Hh Hd hs.
  revert Hg. unfold get_channel_data, bind.
  destruct (get_cached_facts_run c w)
    as [(fd0 & Hc & ->)|(Hc & fd0 & hs0 & w0 & Hload & -> & ->)]; rewrite Hc.
  - destruct (get_cached_aliases_run c w) as [(ad0 & Hca & ->)|(Hca & ->)];
      rewrite Hca; simpl; by intros [= <- <- <-].
  - assert (encode_facts (heap w ++ hs0) fd0
              = default ∅ (factoids_facts (db w) !! c) ∧
            (∀ k f, fd0 !! k = Some f → values f < length (heap w ++ hs0)))
      as Hfd.
    { destruct (factoids_facts (db w) !! c) as [s|]; simpl.
      - destruct (load_facts_spec s w) as (fd1 & hs1 & Hl1 & He & Hv).
        rewrite Hl1 in Hload. injection Hload as <- Hw. by rewrite <- Hw.
      - injection Hload as <- Hw. split.
        + apply map_eq. intros k. unfold encode_facts.
          by rewrite lookup_fmap, !lookup_empty.
        + intros k f. by rewrite lookup_empty. }
    match goal with |- context [get_cached_aliases c ?w1] =>
      destruct (get_cached_aliases_run c w1) as [(ad0 & Hca & Hr)|(Hca & Hr)];
        rewrite Hr; simpl in Hca; rewrite Hca
    end; simpl; by intros [= <- <- <-].
Qed.

(** ** Every call is a change of its own channel *)

(** Persisting a channel leaves what the database holds for the others. *)
Lemma set_channel_data_others b c fd ad w r w' c' :
  set_channel_data b c fd ad w = (r, w') → c' ≠ c →
  factoids_facts (db w') !! c' = factoids_facts (db w) !! c' ∧
  factoids_aliases (db w') !! c' = factoids_aliases (db w) !! c'.
Proof.
  rewrite set_channel_data_run. intros Hs Hne.
  destruct b as [[] [] []]; simpl in Hs; destruct (export_dir w);
    injection Hs as <- <-; simpl; by rewrite ?lookup_insert_ne.
Qed.

(** Every call is one of these changes, on its own channel only. *)
Lemma perform_change b c op w fd ad w1 r w2 :
  get_channel_data b c w = (Return (fd, ad), w1) →
  perform b c op w = (r, w2) →
  ∃ fd' ad',
    change (heap w1) fd ad op (heap w2) fd' ad' ∧
    facts_cache w2 = <[c := fd']> (facts_cache w1) ∧
    aliases_cache w2 = <[c := ad']> (aliases_cache w1) ∧
    (∀ c', c' ≠ c →
       factoids_facts (db w2) !! c' = factoids_facts (db w1) !! c' ∧
       factoids_aliases (db w2) !! c' = factoids_aliases (db w1) !! c').
Proof.
  intros Hg. destruct (get_channel_data_slots _ _ _ _ _ _ Hg) as [Hsf Hsa].
  assert (∀ w', w' = w1 →
            ∃ fd' ad',
              change (heap w1) fd ad op (heap w') fd' ad' ∧
              facts_cache w' = <[c := fd']> (facts_cache w1) ∧
              aliases_cache w' = <[c := ad']> (aliases_cache w1) ∧
              (∀ c', c' ≠ c →
                 factoids_facts (db w') !! c' = factoids_facts (db w1) !! c' ∧
                 factoids_aliases (db w') !! c' = factoids_aliases (db w1) !! c'))
    as Hnone.
  { intros w' ->. exists fd, ad. rewrite !insert_id by done.
    split; [constructor|done]. }
  assert (∀ fd' ad' wm,
            change (heap w1) fd ad op (heap wm) fd' ad' →
            facts_cache wm = <[c := fd']> (facts_cache w1) →
            aliases_cache wm = <[c := ad']> (aliases_cache w1) →
            db wm = db w1 →
            set_channel_data b c fd' ad' wm = (r, w2) →
            ∃ fd' ad',
              change (heap w1) fd ad op (heap w2) fd' ad' ∧
              facts_cache w2 = <[c := fd']> (facts_cache w1) ∧
              aliases_cache w2 = <[c := ad']> (aliases_cache w1) ∧
              (∀ c', c' ≠ c →
                 factoids_facts (db w2) !! c' = factoids_facts (db w1) !! c' ∧
                 factoids_aliases (db w2) !! c' = factoids_aliases (db w1) !! c'))
    as Hsome.
  { intros fd' ad' wm Hch Hfc Hac Hdb Hs.
    pose proof Hs as (Hfc2 & Hac2 & Hh2 & _)%set_channel_data_frame.
    exists fd', ad'. rewrite Hfc2, Hac2, Hh2. split_and!; try done.
    intros c' Hne. rewrite <- Hdb.
    by apply (set_channel_data_others _ _ _ _ _ _ _ _ Hs). }
  destruct op as [key verb add also|key value|key]; simpl.
  - rewrite (add_facts_run _ _ _ _ _ _ _ _ _ _ Hg). simpl.
    destruct (fd !! lower (resolve_alias ad key)) as [f|] eqn:Hf;
      [destruct also|].
    + apply Hsome; unfold appended; simpl; try done.
      * by constructor.
      * by rewrite insert_id.
    + intros [= <- <-]. by apply Hnone.
    + apply Hsome; unfold created; simpl; try done.
      * by constructor.
      * by rewrite insert_id.
  - rewrite (set_alias_run _ _ _ _ _ _ _ _ Hg).
    destruct (ad !! lower key) eqn:Ha; [intros [= <- <-]; by apply Hnone|].
    destruct (fd !! lower key) eqn:Hf; [intros [= <- <-]; by apply Hnone|].
    simpl. destruct (fd !! lower (resolve_alias ad value)) eqn:Ht;
      [|intros [= <- <-]; by apply Hnone].
    apply Hsome; unfold aliased; simpl; try done.
    + by constructor.
    + by rewrite insert_id.
  - rewrite (delete_value_run _ _ _ _ _ _ _ Hg).
    destruct (fd !! lower key) eqn:Hf.
    + apply Hsome; unfold fact_forgotten; simpl; try done.
      by constructor.
    + destruct (ad !! lower key) eqn:Ha; [|intros [= <- <-]; by apply Hnone].
      apply Hsome; unfold alias_forgotten; simpl; try done.
      * by constructor.
      * by rewrite insert_id.
Qed.

(** ** What holds in every world that can be reached *)

Lemma grows_refl h : grows h h.
Proof. intros l vs Hl. by exists vs. Qed.

Lemma grows_app h hs : grows h (h ++ hs).
Proof.
  intros l vs Hl. exists vs. split; [|done].
  rewrite lookup_app_l; [done|]. by eapply lookup_lt_Some.
Qed.

Lemma grows_alter h l add : grows h (alter (λ vs, vs ++ add) l h).
Proof.
  intros l' vs Hl. rewrite list_lookup_alter. case_decide as Heq.
  - subst. rewrite Hl. simpl. eexists. split; [done|]. by apply prefix_app_r.
  - by exists vs.
Qed.

Lemma change_grows h fd ad op h' fd' ad' :
  change h fd ad op h' fd' ad' → grows h h'.
Proof.
  destruct 1; try apply grows_refl; [apply grows_app|apply grows_alter].
Qed.

Section invariants.
Variable d : database.
Variable P : call → Prop.
Variable Inv : gmap string fact → gmap string string → list (list string) → Prop.

Hypothesis Inv_grows : ∀ fd ad h h', Inv fd ad h → grows h h' → Inv fd ad h'.
Hypothesis Inv_loaded : ∀ c h fd,
  encode_facts h fd = default ∅ (factoids_facts d !! c) →
  (∀ k f, fd !! k = Some f → values f < length h) →
  Inv fd (default ∅ (factoids_aliases d !! c)) h.
Hypothesis Inv_change : ∀ h fd ad op h' fd' ad',
  P op → Inv fd ad h → change h fd ad op h' fd' ad' → Inv fd' ad' h'.

Lemma get_channel_data_holds b c w fd ad w1 :
  holds_everywhere d Inv w →
  get_channel_data b c w = (Return (fd, ad), w1) →
  Inv fd ad (heap w1) ∧ holds_everywhere d Inv w1.
Proof.
  intros Hw Hg.
  destruct (get_channel_data_slots _ _ _ _ _ _ Hg) as [Hsf Hsa].
  destruct (get_channel_data_loaded _ _ _ _ _ _ Hg)
    as (Hothers & Hdb & [hs Hh] & Hfd & Had).
  assert (Inv fd ad (heap w1)) as HI.
  { specialize (Hw c).
    destruct (facts_cache w !! c) as [fd0|], (aliases_cache w !! c) as [ad0|];
      try done.
    - subst. rewrite Hh. eapply Inv_grows; [done|apply grows_app].
    - destruct Hw as [Hwf Hwa], Hfd as [He Hv].
      rewrite Had, Hwa. apply Inv_loaded; [by rewrite He, Hwf|done]. }
  split; [done|]. intros c'. destruct (decide (c' = c)) as [->|Hne].
  - by rewrite Hsf, Hsa.
  - destruct (Hothers c' Hne) as [-> ->]. specialize (Hw c').
    destruct (facts_cache w !! c'), (aliases_cache w !! c'); try done.
    + rewrite Hh. eapply Inv_grows; [done|apply grows_app].
    + by rewrite Hdb.
Qed.

Lemma perform_holds b c op w :
  P op → holds_everywhere d Inv w → holds_everywhere d Inv (perform b c op w).2.
Proof.
  intros HP Hw.
  destruct (get_channel_data_run b c w) as (fd & ad & w1 & hs & Hg & _).
  destruct (get_channel_data_holds _ _ _ _ _ _ Hw Hg) as [HI Hw1].
  destruct (perform b c op w) as [r w2] eqn:Hop. simpl.
  destruct (perform_change _ _ _ _ _ _ _ _ _ Hg Hop)
    as (fd' & ad' & Hch & Hfc & Hac & Hdb).
  intros c'. rewrite Hfc, Hac. destruct (decide (c' = c)) as [->|Hne].
  - rewrite !lookup_insert_eq. by eapply Inv_change.
  - rewrite !lookup_insert_ne by done. specialize (Hw1 c').
    destruct (facts_cache w1 !! c'), (aliases_cache w1 !! c'); try done.
    + eapply Inv_grows; [done|by eapply change_grows].
    + destruct (Hdb c' Hne) as [-> ->]. done.
Qed.

Lemma reachable_holds w : reachable d P w → holds_everywhere d Inv w.
Proof.
  induction 1 as [dir|b c op w _ IH HP|b c key w _ IH].
  - intros c. unfold boot. simpl. by rewrite !lookup_empty.
  - by apply perform_holds.
  - destruct (get_channel_data_run b c w) as (fd & ad & w1 & hs & Hg & _).
    rewrite (get_value_run _ _ _ _ _ _ _ Hg). simpl.
    by destruct (get_channel_data_holds _ _ _ _ _ _ IH Hg).
Qed.

(** In a world that can be reached, [Inv] holds of the dicts that
    [get_channel_data] gives for any channel. *)
Lemma reachable_channel b c w fd ad w1 :
  reachable d P w →
  get_channel_data b c w = (Return (fd, ad), w1) →
  Inv fd ad (heap w1).
Proof.
  intros Hr Hg.
  by destruct (get_channel_data_holds _ _ _ _ _ _ (reachable_holds _ Hr) Hg).
Qed.
End invariants.

(** ** Aliases point to facts *)

Lemma consistent_encode h fd ad :
  consistent stored_name (encode_facts h fd) ad ↔ consistent name fd ad.
Proof.
  unfold consistent, encode_facts.
  setoid_rewrite lookup_fmap. setoid_rewrite fmap_is_Some.
  split; intros (H1 & H2 & H3); split_and!; try done.
  - intros k f Hk. apply (H1 k (encode_fact h f)). by rewrite Hk.
  - intros a t Ha. specialize (H3 a t Ha). by destruct (fd !! a).
  - intros k sf Hk. destruct (fd !! k) as [f|] eqn:Hf; [|done].
    injection Hk as <-. by apply H1.
  - intros a t Ha. by rewrite (H3 a t Ha).
Qed.

Lemma consistent_change h fd ad op h' fd' ad' :
  consistent name fd ad → change h fd ad op h' fd' ad' →
  consistent name fd' ad'.
Proof.
  intros (Hn & Ht & Hd) Hch. destruct Hch as
    [op|key verb add also Hf|key verb add f Hf|key value Ha Hf Hv
    |key Hf|key Hf Ha].
  - done.
  - assert (ad !! lower key = None) as Hak.
    { destruct (ad !! lower key) as [t|] eqn:Ha; [|done].
      destruct (Ht _ _ Ha) as [Hl [f Hft]]. revert Hf.
      unfold resolve_alias. rewrite Ha, Hl, Hft. done. }
    revert Hf. unfold resolve_alias. rewrite Hak. intros Hf.
    split_and!.
    + intros k f. destruct (decide (lower key = k)) as [<-|Hne].
      * rewrite lookup_insert_eq. by intros [= <-].
      * rewrite lookup_insert_ne by done. apply Hn.
    + intros a t Hat. destruct (Ht a t Hat) as [Hl Hsome]. split; [done|].
      destruct (decide (lower key = t)) as [<-|Hne].
      * by rewrite lookup_insert_eq.
      * by rewrite lookup_insert_ne.
    + intros a t Hat. rewrite lookup_insert_ne; [by eapply Hd|].
      intros <-. by rewrite Hak in Hat.
  - rewrite (Hn _ _ Hf), insert_id by done. done.
  - destruct Hv as [f Hv]. split_and!; [done|..].
    + intros a t. destruct (decide (lower key = a)) as [<-|Hne].
      * rewrite lookup_insert_eq. intros [= <-].
        rewrite lower_idem. eauto.
      * rewrite lookup_insert_ne by done. apply Ht.
    + intros a t. destruct (decide (lower key = a)) as [<-|Hne].
      * done.
      * rewrite lookup_insert_ne by done. apply Hd.
  - split_and!.
    + intros k f [_ Hk]%lookup_delete_Some. by apply Hn.
    + intros a t [Hat Hne]%map_lookup_filter_Some. simpl in Hne.
      destruct (Ht a t Hat) as [Hl Hsome]. split; [done|].
      by rewrite lookup_delete_ne.
    + intros a t [Hat Hne]%map_lookup_filter_Some.
      apply lookup_delete_None. right. by eapply Hd.
  - split_and!; [done|..].
    + intros a t [_ Hat]%lookup_delete_Some. by eapply Ht.
    + intros a t [_ Hat]%lookup_delete_Some. by eapply Hd.
Qed.

(** In a world reached from a consistent database the dicts of every
    channel are consistent. *)
Lemma reachable_consistent d P b c w fd ad w1 :
  db_consistent d → reachable d P w →
  get_channel_data b c w = (Return (fd, ad), w1) →
  consistent name fd ad.
Proof.
  intros Hd Hr Hg.
  apply (reachable_channel d P (λ fd ad _, consistent name fd ad))
    with (b := b) (c := c) (w := w) (w1 := w1); try done.
  - intros c0 h fd0 He _. apply (consistent_encode h). rewrite He. apply Hd.
  - intros h fd0 ad0 op h' fd' ad' _. apply consistent_change.
Qed.

(** C4. In every world reached from a consistent database by any calls,
    whatever fails on the way, every alias of every channel has as target
    the key of a fact of that channel, the target is not itself an alias,
    and the alias's key is not the key of a fact. An alias made for a name
    that is an alias gets that alias's target and not the alias itself, and
    deleting a fact leaves no alias that had it as target. *)
Theorem aliases_point_to_facts d w :
  db_consistent d → reachable d (λ _, True) w →
  (∀ b c F A,
     channel_state b c w = Some (F, A) →
     ∀ a t, A !! a = Some t →
            is_Some (F !! t) ∧ A !! t = None ∧ F !! a = None) ∧
  (∀ b c key value fd ad w1 k r w2,
     get_channel_data b c w = (Return (fd, ad), w1) →
     ad !! lower value = Some k →
     set_alias b c key value w = (r, w2) →
     (∀ m, r ≠ Raise (FactError m)) →
     aliases_cache w2 !! c = Some (<[lower key := k]> ad)) ∧
  (∀ b c key fd ad w1 r w2,
     get_channel_data b c w = (Return (fd, ad), w1) →
     is_Some (fd !! lower key) →
     delete_value b c key w = (r, w2) →
     ∃ ad', aliases_cache w2 !! c = Some ad' ∧
            ∀ a, ad !! a = Some (lower key) → ad' !! a = None).
Proof.
  intros Hd Hr. split_and!.
  - intros b c F A. unfold channel_state.
    destruct (get_channel_data_run b c w) as (fd & ad & w1 & hs & Hg & _).
    rewrite Hg. intros [= <- <-] a t Ha.
    destruct (reachable_consistent _ _ _ _ _ _ _ _ Hd Hr Hg) as (_ & Ht & Hdis).
    destruct (Ht a t Ha) as [_ [f Hf]]. split_and!.
    + unfold encode_facts. rewrite lookup_fmap, Hf. eauto.
    + destruct (ad !! t) as [t'|] eqn:Hat; [|done].
      by rewrite (Hdis t t' Hat) in Hf.
    + unfold encode_facts. by rewrite lookup_fmap, (Hdis a t Ha).
  - intros b c key value fd ad w1 k r w2 Hg Hk Hs Hr'.
    destruct (reachable_consistent _ _ _ _ _ _ _ _ Hd Hr Hg) as (_ & Ht & _).
    destruct (Ht _ _ Hk) as [Hl _].
    revert Hs. rewrite (set_alias_run _ _ _ _ _ _ _ _ Hg).
    unfold resolve_alias. rewrite Hk, Hl.
    destruct (ad !! lower key);
      [intros [= <- _]; by destruct (Hr' (AlreadyAlias key))|].
    destruct (fd !! lower key);
      [intros [= <- _]; by destruct (Hr' (AlreadyHasFacts key))|].
    destruct (fd !! k); [|intros [= <- _]; by destruct (Hr' (UnknownFact k))].
    intros (_ & Hac & _)%set_channel_data_frame.
    rewrite Hac. unfold aliased. simpl. by rewrite lookup_insert_eq.
  - intros b c key fd ad w1 r w2 Hg [f Hf].
    rewrite (delete_value_run _ _ _ _ _ _ _ Hg), Hf.
    intros (_ & Hac & _)%set_channel_data_frame.
    eexists. rewrite Hac. unfold fact_forgotten. simpl.
    rewrite lookup_insert_eq. split; [done|].
    intros a Ha. apply map_lookup_filter_None. right. intros t Hat.
    simpl. rewrite Ha in Hat. injection Hat as <-. by intros ?.
Qed.

Lemma db_consistent_empty : db_consistent empty_db.
Proof.
  intros c. unfold empty_db. simpl. rewrite !lookup_empty. simpl.
  split_and!; intros ? ?; by rewrite lookup_empty.
Qed.

Lemma aliases_point_to_facts_witness :
  channel_state reliable "#chan" aliased_world
    = Some ({[ "foo" := ("Foo", "is", ["x"]) ]},
            {[ "bar" := "foo"; "baz" := "foo" ]}) ∧
  is_Some (({[ "foo" := ("Foo", "is", ["x"]) ]} : gmap string stored_fact)
             !! "foo") ∧
  ({[ "bar" := "foo"; "baz" := "foo" ]} : gmap string string) !! "foo" = None ∧
  ({[ "foo" := ("Foo", "is", ["x"]) ]} : gmap string stored_fact) !! "baz" = None.
Proof.
  split; [vm_compute; reflexivity|].
  apply (proj1 (aliases_point_to_facts empty_db aliased_world
                  db_consistent_empty
                  (reachable_perform _ _ _ _ _ _
                     (reachable_perform _ _ _ _ _ _
                        (reachable_perform _ _ _ _ _ _
                           (reachable_boot _ _ None) I) I) I))
           reliable "#chan" _ _).
  - vm_compute. reflexivity.
  - vm_compute. reflexivity.
Defined.

Example aliased_world_aliases :
  aliases_cache aliased_world !! "#chan"
    = Some {[ "bar" := "foo"; "baz" := "foo" ]}.
Proof. vm_compute. reflexivity. Qed.

(** ** Facts have values *)

Lemma all_valued_grows fd h h' : all_valued fd h → grows h h' → all_valued fd h'.
Proof.
  intros Hv Hg k f Hk. destruct (Hv k f Hk) as (vs & Hl & Hne).
  destruct (Hg _ _ Hl) as (vs' & Hl' & [ext ->]).
  exists (vs ++ ext). split; [done|]. by destruct vs.
Qed.

Lemma all_valued_change h fd ad op h' fd' ad' :
  with_values op → all_valued fd h → change h fd ad op h' fd' ad' →
  all_valued fd' h'.
Proof.
  intros HP Hv Hch.
  pose proof (all_valued_grows _ _ _ Hv (change_grows _ _ _ _ _ _ _ Hch)) as Hv'.
  destruct Hch as
    [op|key verb add also Hf|key verb add f Hf|key value Ha Hf Ht
    |key Hf|key Hf Ha]; try done.
  - intros k f. destruct (decide (lower (resolve_alias ad key) = k)) as [<-|Hne].
    + rewrite lookup_insert_eq. intros [= <-]. simpl.
      exists (strip <$> add). rewrite lookup_app_r, Nat.sub_diag by lia.
      split; [done|]. simpl in HP. by destruct add.
    + rewrite lookup_insert_ne by done. apply Hv'.
  - intros k f'. destruct (decide (lower (name f) = k)) as [<-|Hne].
    + rewrite lookup_insert_eq. intros [= <-]. by eapply Hv'.
    + rewrite lookup_insert_ne by done. apply Hv'.
  - intros k f [_ Hk]%lookup_delete_Some. by eapply Hv'.
Qed.

Lemma reachable_valued d b c w fd ad w1 :
  db_valued d → reachable d with_values w →
  get_channel_data b c w = (Return (fd, ad), w1) →
  all_valued fd (heap w1).
Proof.
  intros Hd Hr Hg.
  apply (reachable_channel d with_values (λ fd _ h, all_valued fd h))
    with (b := b) (c := c) (w := w) (ad := ad); try done.
  - intros fd0 _ h h'. apply all_valued_grows.
  - intros c0 h fd0 He Hv k f Hk.
    destruct (lookup_lt_is_Some_2 h (values f) (Hv k f Hk)) as [vs Hvs].
    exists vs. split; [done|].
    destruct (factoids_facts d !! c0) as [s|] eqn:Hs; simpl in He.
    + apply (Hd c0 s k (name f, verb f, vs) Hs).
      rewrite <- He. unfold encode_facts. rewrite lookup_fmap, Hk. simpl.
      unfold encode_fact, contents. by rewrite Hvs.
    + apply (f_equal (.!! k)) in He. revert He.
      unfold encode_facts. by rewrite lookup_fmap, Hk, lookup_empty.
  - intros h fd0 ad0 op h' fd' ad'. apply all_valued_change.
Qed.

(** C8, counterexample. Teaching a new key with an empty batch of values
    succeeds and leaves a fact without values. *)
Lemma add_facts_empty_batch :
  (add_facts reliable "#chan" "Foo" "is" [] false (boot empty_db None)).1
    = Return tt ∧
  lookup reliable "#chan" "Foo"
    (add_facts reliable "#chan" "Foo" "is" [] false (boot empty_db None)).2
    = Some ("Foo", "is", []).
Proof. vm_compute. split; reflexivity. Qed.

(** C8, amended. In every world reached, from a database whose facts all
    have values, by calls of which those that teach bring a batch that is
    not empty, every fact of every channel has at least one value. The
    entries of a batch may be empty once stripped: they count as values. *)
Theorem facts_have_values d w :
  db_valued d → reachable d with_values w →
  ∀ b c F A,
    channel_state b c w = Some (F, A) →
    ∀ k n v vs, F !! k = Some (n, v, vs) → vs ≠ [].
Proof.
  intros Hd Hr b c F A. unfold channel_state.
  destruct (get_channel_data_run b c w) as (fd & ad & w1 & hs & Hg & _).
  rewrite Hg. intros [= <- <-] k n v vs.
  unfold encode_facts. rewrite lookup_fmap.
  destruct (fd !! k) as [f|] eqn:Hk; [|done].
  destruct (reachable_valued _ _ _ _ _ _ _ Hd Hr Hg k f Hk) as (vs' & Hl & Hne).
  simpl. unfold encode_fact, contents. rewrite Hl. by intros [= _ _ <-].
Qed.

Lemma db_valued_empty : db_valued empty_db.
Proof. intros c s k sf. unfold empty_db. simpl. by rewrite lookup_empty. Qed.

Lemma facts_have_values_witness :
  channel_state reliable "#chan" blank_world
    = Some ({[ "foo" := ("Foo", "is", ["x"; ""]) ]}, ∅) ∧
  ["x"; ""] ≠ ([] : list string).
Proof.
  split; [vm_compute; reflexivity|].
  refine (facts_have_values empty_db blank_world db_valued_empty
           (reachable_perform _ with_values reliable "#chan"
              (AddFacts "foo" "is" ["   "] true) _
              (reachable_perform _ with_values reliable "#chan"
                 (AddFacts "Foo" "is" ["x"] false) _
                 (reachable_boot _ _ None)
                 ltac:(simpl; discriminate))
              ltac:(simpl; discriminate))
           reliable "#chan" {[ "foo" := ("Foo", "is", ["x"; ""]) ]} ∅ _
           "foo" "Foo" "is" ["x"; ""] _).
  - vm_compute. reflexivity.
  - vm_compute. reflexivity.
Defined.

Example blank_world_lookup :
  lookup reliable "#chan" "foo" blank_world = Some ("Foo", "is", ["x"; ""]).
Proof. vm_compute. reflexivity. Qed.

(** ** Where the data of a channel comes from *)

(** A channel that is not in the cache is read from the database. *)
Lemma channel_state_uncached b c w :
  facts_cache w !! c = None → aliases_cache w !! c = None →
  channel_state b c w
    = Some (default ∅ (factoids_facts (db w) !! c),
            default ∅ (factoids_aliases (db w) !! c)).
Proof.
  intros Hf Ha. unfold channel_state.
  destruct (get_channel_data_run b c w) as (fd & ad & w1 & hs & Hg & _).
  rewrite Hg.
  destruct (get_channel_data_loaded _ _ _ _ _ _ Hg) as (_ & _ & _ & Hfd & Had).
  rewrite Hf in Hfd. rewrite Ha in Had. destruct Hfd as [-> _]. by subst.
Qed.

(** X1. What the bot takes to be the facts and aliases of a channel: what
    the cache holds for it, whatever the database holds by now, and, for a
    channel not yet in the cache, exactly what the database holds, or
    nothing if the database has no entry. *)
Theorem channel_state_source b c w :
  (∀ fd ad d',
     facts_cache w !! c = Some fd → aliases_cache w !! c = Some ad →
     channel_state b c (set_db d' w) = Some (encode_facts (heap w) fd, ad)) ∧
  (facts_cache w !! c = None → aliases_cache w !! c = None →
   channel_state b c w
     = Some (default ∅ (factoids_facts (db w) !! c),
             default ∅ (factoids_aliases (db w) !! c))).
Proof.
  split.
  - intros fd ad d' Hf Ha. unfold channel_state.
    by rewrite (get_channel_data_cached b c (set_db d' w) fd ad).
  - apply channel_state_uncached.
Qed.

Lemma channel_state_source_witness :
  channel_state reliable "#chan" sample_world
    = Some (default ∅ (factoids_facts (db sample_world) !! "#chan"),
            default ∅ (factoids_aliases (db sample_world) !! "#chan")).
Proof.
  apply (proj2 (channel_state_source reliable "#chan" sample_world));
    reflexivity.
Defined.

(** ** What a call that returns has written *)

Lemma set_channel_data_returns b c fd ad w w' :
  set_channel_data b c fd ad w = (Return tt, w') →
  db w' = db_with_both c fd ad w.
Proof.
  rewrite set_channel_data_run.
  destruct b as [[] [] []]; simpl; destruct (export_dir w);
    by intros [= <-].
Qed.

(** When a call returns, the database holds for the channel what the cache
    holds. *)
Lemma perform_returns_persisted b c op w w2 :
  perform b c op w = (Return tt, w2) →
  ∃ fd' ad',
    facts_cache w2 !! c = Some fd' ∧ aliases_cache w2 !! c = Some ad' ∧
    factoids_facts (db w2) !! c = Some (encode_facts (heap w2) fd') ∧
    factoids_aliases (db w2) !! c = Some ad'.
Proof.
  destruct (get_channel_data_run b c w) as (fd & ad & w1 & hs & Hg & _).
  destruct (get_channel_data_slots _ _ _ _ _ _ Hg) as [Hsf Hsa].
  assert (∀ fd' ad' wm,
            facts_cache wm !! c = Some fd' → aliases_cache wm !! c = Some ad' →
            set_channel_data b c fd' ad' wm = (Return tt, w2) →
            ∃ fd' ad',
              facts_cache w2 !! c = Some fd' ∧ aliases_cache w2 !! c = Some ad' ∧
              factoids_facts (db w2) !! c = Some (encode_facts (heap w2) fd') ∧
              factoids_aliases (db w2) !! c = Some ad') as Hs.
  { intros fd' ad' wm Hf Ha Hs.
    pose proof Hs as (Hfc & Hac & Hh & _)%set_channel_data_frame.
    apply set_channel_data_returns in Hs.
    exists fd', ad'. rewrite Hfc, Hac, Hh, Hs. unfold db_with_both. simpl.
    by rewrite !lookup_insert_eq. }
  destruct op as [key verb add also|key value|key]; simpl.
  - rewrite (add_facts_run _ _ _ _ _ _ _ _ _ _ Hg). simpl.
    destruct (fd !! lower (resolve_alias ad key)) as [f|]; [destruct also|];
      try done; apply Hs; unfold appended, created; simpl;
      by rewrite ?lookup_insert_eq.
  - rewrite (set_alias_run _ _ _ _ _ _ _ _ Hg).
    destruct (ad !! lower key); [done|]. destruct (fd !! lower key); [done|].
    simpl. destruct (fd !! lower (resolve_alias ad value)); [|done].
    apply Hs; unfold aliased; simpl; by rewrite ?lookup_insert_eq.
  - rewrite (delete_value_run _ _ _ _ _ _ _ Hg).
    destruct (fd !! lower key).
    + apply Hs; unfold fact_forgotten; simpl; by rewrite ?lookup_insert_eq.
    + destruct (ad !! lower key); [|done].
      apply Hs; unfold alias_forgotten; simpl; by rewrite ?lookup_insert_eq.
Qed.

(** X2. When a call returns, what it made of the channel is in the
    database: a bot started anew on that database finds the facts and
    aliases of the channel as the call left them in memory. *)
Theorem restart_after_return b b' c op w w2 dir :
  perform b c op w = (Return tt, w2) →
  channel_state b' c (boot (db w2) dir) = channel_state b' c w2.
Proof.
  intros (fd' & ad' & Hf & Ha & Hdf & Hda)%perform_returns_persisted.
  rewrite (channel_state_uncached b' c (boot (db w2) dir))
    by (unfold boot; simpl; apply lookup_empty).
  unfold boot. simpl. rewrite Hdf, Hda. simpl.
  unfold channel_state. by rewrite (get_channel_data_cached b' c w2 fd' ad').
Qed.

Lemma restart_after_return_witness :
  channel_state reliable "#chan"
    (boot (db (perform reliable "#chan" (SetAlias "Fubar" "FOOBAR")
                 sample_world).2) None)
  = channel_state reliable "#chan"
      (perform reliable "#chan" (SetAlias "Fubar" "FOOBAR") sample_world).2.
Proof.
  apply (restart_after_return reliable reliable "#chan"
           (SetAlias "Fubar" "FOOBAR") sample_world).
  vm_compute. reflexivity.
Defined.

(** X3. The two writes of [set_channel_data] are not one: when the first
    goes through and the second fails, a call that got as far as persisting
    raises the database's error, and the database then holds the facts of
    the channel as the call made them and the aliases as they were
    before. *)
Theorem torn_write b c op w r w2 :
  set_facts_ok b = true → set_aliases_ok b = false →
  perform b c op w = (r, w2) →
  (∀ m, r ≠ Raise (FactError m)) →
  r = Raise DatabaseError ∧
  (∃ fd', facts_cache w2 !! c = Some fd' ∧
          factoids_facts (db w2) !! c = Some (encode_facts (heap w2) fd')) ∧
  factoids_aliases (db w2) = factoids_aliases (db w).
Proof.
  intros Hbf Hba Hop Hr.
  destruct (get_channel_data_run b c w)
    as (fd & ad & w1 & hs & Hg & _ & _ & _ & Hdb & _).
  assert (∀ fd' ad' wm,
            facts_cache wm !! c = Some fd' → db wm = db w →
            set_channel_data b c fd' ad' wm = (r, w2) →
            r = Raise DatabaseError ∧
            (∃ fd', facts_cache w2 !! c = Some fd' ∧
               factoids_facts (db w2) !! c = Some (encode_facts (heap w2) fd')) ∧
            factoids_aliases (db w2) = factoids_aliases (db w)) as Hs.
  { intros fd' ad' wm Hf Hd. rewrite set_channel_data_run, Hbf, Hba.
    intros [= <- <-]. split; [done|]. split.
    - exists fd'. simpl. unfold db_with_facts. simpl.
      by rewrite lookup_insert_eq.
    - simpl. by rewrite Hd. }
  revert Hop. destruct op as [key verb add also|key value|key]; simpl.
  - rewrite (add_facts_run _ _ _ _ _ _ _ _ _ _ Hg). simpl.
    destruct (fd !! lower (resolve_alias ad key)) as [f|]; [destruct also|].
    + apply Hs; unfold appended; simpl; by rewrite ?lookup_insert_eq.
    + intros [= <- _]. by destruct (Hr (AlreadyDefined (name f))).
    + apply Hs; unfold created; simpl; by rewrite ?lookup_insert_eq.
  - rewrite (set_alias_run _ _ _ _ _ _ _ _ Hg).
    destruct (get_channel_data_slots _ _ _ _ _ _ Hg) as [Hsf _].
    destruct (ad !! lower key);
      [intros [= <- _]; by destruct (Hr (AlreadyAlias key))|].
    destruct (fd !! lower key);
      [intros [= <- _]; by destruct (Hr (AlreadyHasFacts key))|].
    simpl. destruct (fd !! lower (resolve_alias ad value));
      [|intros [= <- _]; by destruct (Hr (UnknownFact (resolve_alias ad value)))].
    apply Hs; unfold aliased; simpl; done.
  - rewrite (delete_value_run _ _ _ _ _ _ _ Hg).
    destruct (get_channel_data_slots _ _ _ _ _ _ Hg) as [Hsf _].
    destruct (fd !! lower key).
    + apply Hs; unfold fact_forgotten; simpl; by rewrite ?lookup_insert_eq.
    + destruct (ad !! lower key);
        [|intros [= <- _]; by destruct (Hr (UnknownKey key))].
      apply Hs; unfold alias_forgotten; simpl; done.
Qed.

Lemma torn_write_witness :
  (perform aliases_failing "#chan" (DeleteValue "foo") sample_world).1
    = Raise DatabaseError ∧
  (∃ fd',
     facts_cache (perform aliases_failing "#chan" (DeleteValue "foo")
                    sample_world).2 !! "#chan" = Some fd' ∧
     factoids_facts
       (db (perform aliases_failing "#chan" (DeleteValue "foo")
              sample_world).2) !! "#chan"
       = Some (encode_facts
                 (heap (perform aliases_failing "#chan" (DeleteValue "foo")
                          sample_world).2) fd')) ∧
  factoids_aliases
    (db (perform aliases_failing "#chan" (DeleteValue "foo") sample_world).2)
    = factoids_aliases (db sample_world).
Proof.
  apply (torn_write aliases_failing "#chan" (DeleteValue "foo") sample_world).
  - reflexivity.
  - reflexivity.
  - vm_compute. reflexivity.
  - intros m. vm_compute. discriminate.
Defined.

Example torn_delete_leaves_dangling_alias :
  channel_state reliable "#chan"
    (boot (db (perform aliases_failing "#chan" (DeleteValue "foo")
                 sample_world).2) None)
  = Some (∅, {[ "foobar" := "foo" ]}).
Proof. vm_compute. reflexivity. Qed.

(** ** The export *)

Lemma set_channel_data_exports b c fd ad w w' dir :
  export_dir w = Some dir →
  set_channel_data b c fd ad w = (Return tt, w') →
  files w' !! path_join dir (c +:+ ".json")
    = Some (ExportDoc (encode_facts (heap w) fd) ad) ∧
  (∀ p, p ≠ path_join dir (c +:+ ".json") → files w' !! p = files w !! p).
Proof.
  intros Hd. rewrite set_channel_data_run, Hd.
  destruct b as [[] [] []]; simpl; try done.
  intros [= <-]. simpl. split; [by rewrite lookup_insert_eq|].
  intros p Hp. by rewrite lookup_insert_ne.
Qed.

(** X17. When an export directory is configured and a call returns, the
    file of the channel in that directory holds the facts and aliases of
    the channel as the call left them, and no other file has changed. *)
Theorem export_mirrors_channel b b' c op w w2 dir :
  export_dir w = Some dir →
  perform b c op w = (Return tt, w2) →
  (∃ F A,
     channel_state b' c w2 = Some (F, A) ∧
     files w2 !! path_join dir (c +:+ ".json") = Some (ExportDoc F A)) ∧
  (∀ p, p ≠ path_join dir (c +:+ ".json") → files w2 !! p = files w !! p).
Proof.
  intros Hdir.
  destruct (get_channel_data_run b c w)
    as (fd & ad & w1 & hs & Hg & _ & _ & _ & _ & He & Hfi).
  destruct (get_channel_data_slots _ _ _ _ _ _ Hg) as [Hsf Hsa].
  assert (∀ fd' ad' wm,
            facts_cache wm !! c = Some fd' → aliases_cache wm !! c = Some ad' →
            export_dir wm = export_dir w1 → files wm = files w1 →
            set_channel_data b c fd' ad' wm = (Return tt, w2) →
            (∃ F A,
               channel_state b' c w2 = Some (F, A) ∧
               files w2 !! path_join dir (c +:+ ".json")
                 = Some (ExportDoc F A)) ∧
            (∀ p, p ≠ path_join dir (c +:+ ".json") →
                  files w2 !! p = files w !! p)) as Hs.
  { intros fd' ad' wm Hf Ha Hem Hfm Hs.
    pose proof Hs as (Hfc & Hac & Hh & _)%set_channel_data_frame.
    assert (export_dir wm = Some dir) as Hd by (by rewrite Hem, He).
    destruct (set_channel_data_exports _ _ _ _ _ _ _ Hd Hs) as [Hfile Hrest].
    split.
    - exists (encode_facts (heap w2) fd'), ad'. split.
      + unfold channel_state.
        rewrite (get_channel_data_cached b' c w2 fd' ad'); [done|..];
          by rewrite ?Hfc, ?Hac.
      + by rewrite Hh.
    - intros p Hp. by rewrite (Hrest p Hp), Hfm, Hfi. }
  destruct op as [key verb add also|key value|key]; simpl.
  - rewrite (add_facts_run _ _ _ _ _ _ _ _ _ _ Hg). simpl.
    destruct (fd !! lower (resolve_alias ad key)) as [f|]; [destruct also|];
      try done; apply Hs; unfold appended, created; simpl;
      by rewrite ?lookup_insert_eq.
  - rewrite (set_alias_run _ _ _ _ _ _ _ _ Hg).
    destruct (ad !! lower key); [done|]. destruct (fd !! lower key); [done|].
    simpl. destruct (fd !! lower (resolve_alias ad value)); [|done].
    apply Hs; unfold aliased; simpl; by rewrite ?lookup_insert_eq.
  - rewrite (delete_value_run _ _ _ _ _ _ _ Hg).
    destruct (fd !! lower key).
    + apply Hs; unfold fact_forgotten; simpl; by rewrite ?lookup_insert_eq.
    + destruct (ad !! lower key); [|done].
      apply Hs; unfold alias_forgotten; simpl; by rewrite ?lookup_insert_eq.
Qed.

Lemma export_mirrors_channel_witness :
  (∃ F A,
     channel_state reliable "#chan"
       (perform reliable "#chan" (SetAlias "Fubar" "FOOBAR") sample_world).2
       = Some (F, A) ∧
     files (perform reliable "#chan" (SetAlias "Fubar" "FOOBAR")
              sample_world).2
       !! path_join "/srv/export" ("#chan" +:+ ".json")
     = Some (ExportDoc F A)) ∧
  (∀ p, p ≠ path_join "/srv/export" ("#chan" +:+ ".json") →
        files (perform reliable "#chan" (SetAlias "Fubar" "FOOBAR")
                 sample_world).2 !! p
        = files sample_world !! p).
Proof.
  apply (export_mirrors_channel reliable reliable "#chan"
           (SetAlias "Fubar" "FOOBAR") sample_world).
  - reflexivity.
  - vm_compute. reflexivity.
Defined.

(** ** Lookups after aliasing and after deleting *)

(** X4. Once [set_alias] has stored an alias, a lookup of the alias and a
    lookup of the name it was made for give the same fact. *)
Theorem alias_lookup_is_target_lookup b b' c key value w r w2 :
  set_alias b c key value w = (r, w2) →
  (∀ m, r ≠ Raise (FactError m)) →
  is_Some (lookup b' c key w2) ∧
  lookup b' c key w2 = lookup b' c value w2.
Proof.
  intros Hs Hr.
  destruct (get_channel_data_run b c w) as (fd & ad & w1 & hs & Hg & _).
  destruct (get_channel_data_slots _ _ _ _ _ _ Hg) as [Hsf Hsa].
  revert Hs. rewrite (set_alias_run _ _ _ _ _ _ _ _ Hg).
  destruct (ad !! lower key) eqn:Ha;
    [intros [= <- _]; by destruct (Hr (AlreadyAlias key))|].
  destruct (fd !! lower key) eqn:Hf;
    [intros [= <- _]; by destruct (Hr (AlreadyHasFacts key))|].
  simpl. destruct (fd !! lower (resolve_alias ad value)) as [f|] eqn:Ht;
    [|intros [= <- _]; by destruct (Hr (UnknownFact (resolve_alias ad value)))].
  intros (Hfc & Hac & _)%set_channel_data_frame.
  assert (lower value ≠ lower key) as Hne.
  { intros Heq. revert Ht. unfold resolve_alias. rewrite Heq, Ha.
    by rewrite Heq, Hf. }
  assert (get_channel_data b' c w2
            = (Return (fd, <[lower key := lower (resolve_alias ad value)]> ad), w2))
    as Hg2.
  { apply get_channel_data_cached.
    - by rewrite Hfc.
    - rewrite Hac. unfold aliased. simpl. by rewrite lookup_insert_eq. }
  unfold lookup. rewrite !(get_value_run _ _ _ _ _ _ _ Hg2).
  assert (resolve_alias (<[lower key := lower (resolve_alias ad value)]> ad) key
            = lower (resolve_alias ad value)) as ->.
  { unfold resolve_alias at 1. by rewrite lookup_insert_eq. }
  assert (resolve_alias (<[lower key := lower (resolve_alias ad value)]> ad) value
            = resolve_alias ad value) as ->.
  { unfold resolve_alias at 1 3. by rewrite lookup_insert_ne. }
  rewrite lower_idem, Ht. eauto.
Qed.

Lemma alias_lookup_is_target_lookup_witness :
  is_Some (lookup reliable "#chan" "Fubar"
             (set_alias reliable "#chan" "Fubar" "FOOBAR" sample_world).2) ∧
  lookup reliable "#chan" "Fubar"
    (set_alias reliable "#chan" "Fubar" "FOOBAR" sample_world).2
  = lookup reliable "#chan" "FOOBAR"
      (set_alias reliable "#chan" "Fubar" "FOOBAR" sample_world).2.
Proof.
  apply (alias_lookup_is_target_lookup reliable reliable "#chan" "Fubar"
           "FOOBAR" sample_world
           (set_alias reliable "#chan" "Fubar" "FOOBAR" sample_world).1).
  - vm_compute. reflexivity.
  - intros m. vm_compute. discriminate.
Defined.

(** X5. In a world reached from a consistent database, once [delete_value]
    has deleted a fact, every name that led to the fact, its own or an
    alias, is unknown to a lookup. *)
Theorem deleted_fact_is_unknown d P b b' c key w fd ad w1 r w2 name :
  db_consistent d → reachable d P w →
  get_channel_data b c w = (Return (fd, ad), w1) →
  is_Some (fd !! lower key) →
  delete_value b c key w = (r, w2) →
  lower (resolve_alias ad name) = lower key →
  lookup b' c name w2 = None.
Proof.
  intros Hd Hre Hg [f Hf] Hdel Hname.
  destruct (reachable_consistent _ _ _ _ _ _ _ _ Hd Hre Hg) as (_ & Ht & Hdis).
  destruct (get_channel_data_slots _ _ _ _ _ _ Hg) as [Hsf Hsa].
  revert Hdel. rewrite (delete_value_run _ _ _ _ _ _ _ Hg), Hf.
  intros (Hfc & Hac & _)%set_channel_data_frame.
  assert (get_channel_data b' c w2
            = (Return (base.delete (lower key) fd,
                       filter (λ kv, kv.2 ≠ lower key) ad), w2)) as Hg2.
  { apply get_channel_data_cached.
    - rewrite Hfc. unfold fact_forgotten. simpl. by rewrite lookup_insert_eq.
    - rewrite Hac. unfold fact_forgotten. simpl. by rewrite lookup_insert_eq. }
  unfold lookup. rewrite (get_value_run _ _ _ _ _ _ _ Hg2).
  assert (resolve_alias (filter (λ kv, kv.2 ≠ lower key) ad) name = name) as ->.
  { unfold resolve_alias at 1.
    destruct (filter _ ad !! lower name) as [t|] eqn:Hfl; [|done].
    apply map_lookup_filter_Some in Hfl as [Hat Hne]. simpl in Hne.
    destruct (Ht _ _ Hat) as [Hl _]. revert Hname.
    unfold resolve_alias. rewrite Hat, Hl. done. }
  destruct (ad !! lower name) as [t|] eqn:Hat.
  - rewrite lookup_delete_ne, (Hdis _ _ Hat); [done|].
    intros Heq. rewrite Heq, (Hdis _ _ Hat) in Hf. done.
  - revert Hname. unfold resolve_alias. rewrite Hat. intros ->.
    by rewrite lookup_delete_eq.
Qed.

Lemma deleted_fact_is_unknown_witness :
  lookup reliable "#chan" "BAZ"
    (delete_value reliable "#chan" "Foo" aliased_world).2 = None.
Proof.
  apply (deleted_fact_is_unknown empty_db (λ _, True) reliable reliable "#chan"
           "Foo" aliased_world
           {[ "foo" := Fact "Foo" "is" 0 ]} {[ "bar" := "foo"; "baz" := "foo" ]}
           aliased_world
           (delete_value reliable "#chan" "Foo" aliased_world).1).
  - exact db_consistent_empty.
  - exact (reachable_perform _ _ _ _ _ _
             (reachable_perform _ _ _ _ _ _
                (reachable_perform _ _ _ _ _ _
                   (reachable_boot _ _ None) I) I) I).
  - vm_compute. reflexivity.
  - exists (Fact "Foo" "is" 0). vm_compute. reflexivity.
  - vm_compute. reflexivity.
  - vm_compute. reflexivity.
Defined.

(** ** Channels do not touch each other *)

Lemma load_items_fresh items w :
  ∃ fd hs,
    load_items items w = (Return fd, set_heap (heap w ++ hs) w) ∧
    ∀ k f, fd !! k = Some f → (length (heap w) ≤ values f)%nat.
Proof.
  induction items as [|[k0 [[n v] vs]] rest IH]; simpl.
  - exists ∅, []. split.
    + unfold ret, set_heap. by rewrite app_nil_r, world_eta.
    + intros k f. by rewrite lookup_empty.
  - destruct IH as (fd0 & hs0 & Hrun & IH).
    exists (<[k0 := Fact n v (length (heap w ++ hs0))]> fd0), (hs0 ++ [vs]).
    split.
    + unfold bind, load_fact, bind, alloc, ret. rewrite Hrun. simpl.
      unfold set_heap. simpl. by rewrite app_assoc.
    + intros k f. destruct (decide (k = k0)) as [->|Hne].
      * rewrite lookup_insert_eq. intros [= <-]. simpl.
        rewrite length_app. lia.
      * rewrite lookup_insert_ne by done. apply IH.
Qed.

(** The facts that [get_channel_data] reads from the database are on list
    objects made for them. *)
Lemma get_channel_data_fresh b c w fd ad w1 :
  facts_cache w !! c = None →
  get_channel_data b c w = (Return (fd, ad), w1) →
  ∀ k f, fd !! k = Some f → (length (heap w) ≤ values f)%nat.
Proof.
  intros Hc. unfold get_channel_data, bind.
  destruct (get_cached_facts_run c w)
    as [(fd0 & Hc' & _)|(_ & fd0 & hs0 & w0 & Hload & -> & ->)];
    [by rewrite Hc in Hc'|].
  assert (∀ k f, fd0 !! k = Some f → (length (heap w) ≤ values f)%nat) as Hfresh.
  { destruct (factoids_facts (db w) !! c) as [s|].
    - destruct (load_items_fresh (map_to_list s) w) as (fd1 & hs1 & Hl & Hfr).
      unfold load_facts in Hload. rewrite Hl in Hload.
      by injection Hload as <- _.
    - injection Hload as <- _. intros k f. by rewrite lookup_empty. }
  match goal with |- context [get_cached_aliases c ?w1] =>
    destruct (get_cached_aliases_run c w1) as [(ad0 & _ & ->)|(_ & ->)]
  end; simpl; by intros [= <- _ _].
Qed.

Lemma owned_apart_fetched b c w fd ad w1 :
  owned_apart w →
  get_channel_data b c w = (Return (fd, ad), w1) →
  owned_apart w1.
Proof.
  intros [Hv Hs] Hg.
  destruct (get_channel_data_run b c w)
    as (fd' & ad' & w1' & hs & H' & Hfc & _ & Hh & _).
  rewrite Hg in H'. injection H' as <- <- <-.
  destruct (get_channel_data_loaded _ _ _ _ _ _ Hg) as (_ & _ & _ & Hfd & _).
  assert (∀ c0 fd0 k f,
            facts_cache w !! c0 = Some fd0 → fd0 !! k = Some f →
            values f < length (heap w1)) as Hold.
  { intros c0 fd0 k f H0 Hk. specialize (Hv _ _ _ _ H0 Hk).
    rewrite Hh, length_app. lia. }
  destruct (facts_cache w !! c) as [fdc|] eqn:Hc.
  { subst fdc. rewrite insert_id in Hfc by done. split.
    - intros c0 fd0 k f. rewrite Hfc. apply Hold.
    - intros c1 c2 fd1 fd2 k1 k2 f1 f2. rewrite Hfc. apply Hs. }
  destruct Hfd as [_ Hnew].
  pose proof (get_channel_data_fresh _ _ _ _ _ _ Hc Hg) as Hfresh.
  split.
  - intros c0 fd0 k f. rewrite Hfc.
    destruct (decide (c0 = c)) as [->|Hne].
    + rewrite lookup_insert_eq. intros [= <-]. apply Hnew.
    + rewrite lookup_insert_ne by done. apply Hold.
  - intros c1 c2 fd1 fd2 k1 k2 f1 f2 Hne. rewrite Hfc.
    destruct (decide (c1 = c)) as [->|Hne1];
      [|destruct (decide (c2 = c)) as [->|Hne2]].
    + rewrite lookup_insert_eq, lookup_insert_ne by done.
      intros [= <-] H2 Hk1 Hk2.
      specialize (Hfresh _ _ Hk1). specialize (Hv _ _ _ _ H2 Hk2). lia.
    + rewrite lookup_insert_eq, lookup_insert_ne by done.
      intros H1 [= <-] Hk1 Hk2.
      specialize (Hfresh _ _ Hk2). specialize (Hv _ _ _ _ H1 Hk1). lia.
    + rewrite !lookup_insert_ne by done. by apply Hs.
Qed.

(** The facts a call leaves are those it found and, at most, one on a list
    object made for it; the list objects that the facts it found do not
    refer to are as they were. *)
Lemma change_facts h fd ad op h' fd' ad' :
  change h fd ad op h' fd' ad' →
  (length h ≤ length h')%nat ∧
  (∀ k f, fd' !! k = Some f →
          (∃ k0, fd !! k0 = Some f) ∨
          (values f = length h ∧ length h < length h')) ∧
  (∀ l, (∀ k f, fd !! k = Some f → values f ≠ l) →
        l < length h → h' !! l = h !! l).
Proof.
  destruct 1 as
    [op|key verb add also Hf|key verb add f Hf|key value Ha Hf Hv
    |key Hf|key Hf Ha].
  - split_and!; eauto.
  - split_and!.
    + rewrite length_app. lia.
    + intros k f.
      destruct (decide (lower (resolve_alias ad key) = k)) as [<-|Hne].
      * rewrite lookup_insert_eq. intros [= <-]. right. simpl.
        rewrite length_app. simpl. lia.
      * rewrite lookup_insert_ne by done. eauto.
    + intros l _ Hl. by rewrite lookup_app_l.
  - split_and!.
    + by rewrite length_alter.
    + intros k f'. destruct (decide (lower (name f) = k)) as [<-|Hne].
      * rewrite lookup_insert_eq. intros [= <-]. eauto.
      * rewrite lookup_insert_ne by done. eauto.
    + intros l Hother _. rewrite list_lookup_alter_ne; [done|].
      by apply (Hother _ _ Hf).
  - split_and!; eauto.
  - split_and!; [done| |done].
    intros k f [_ Hk]%lookup_delete_Some. eauto.
  - split_and!; eauto.
Qed.

Lemma owned_apart_performed b c op w :
  owned_apart w → owned_apart (perform b c op w).2.
Proof.
  intros Hw.
  destruct (get_channel_data_run b c w) as (fd & ad & w1 & hs & Hg & _).
  destruct (owned_apart_fetched _ _ _ _ _ _ Hw Hg) as [Hv Hs].
  destruct (get_channel_data_slots _ _ _ _ _ _ Hg) as [Hsf _].
  destruct (perform b c op w) as [r w2] eqn:Hop. simpl.
  destruct (perform_change _ _ _ _ _ _ _ _ _ Hg Hop)
    as (fd' & ad' & Hch & Hfc & _ & _).
  destruct (change_facts _ _ _ _ _ _ _ Hch) as (Hlen & Hfacts & _).
  split.
  - intros c0 fd0 k f. rewrite Hfc.
    destruct (decide (c0 = c)) as [->|Hne].
    + rewrite lookup_insert_eq. intros [= <-] Hk.
      destruct (Hfacts _ _ Hk) as [[k0 Hk0]|[-> ?]]; [|done].
      specialize (Hv _ _ _ _ Hsf Hk0). lia.
    + rewrite lookup_insert_ne by done. intros H0 Hk.
      specialize (Hv _ _ _ _ H0 Hk). lia.
  - intros c1 c2 fd1 fd2 k1 k2 f1 f2 Hne. rewrite Hfc.
    destruct (decide (c1 = c)) as [->|Hne1];
      [|destruct (decide (c2 = c)) as [->|Hne2]].
    + rewrite lookup_insert_eq, lookup_insert_ne by done.
      intros [= <-] H2 Hk1 Hk2.
      destruct (Hfacts _ _ Hk1) as [[k0 Hk0]|[-> ?]].
      * by apply (Hs c c2 fd fd2 k0 k2).
      * specialize (Hv _ _ _ _ H2 Hk2). lia.
    + rewrite lookup_insert_eq, lookup_insert_ne by done.
      intros H1 [= <-] Hk1 Hk2.
      destruct (Hfacts _ _ Hk2) as [[k0 Hk0]|[Heq ?]].
      * by apply (Hs c1 c fd1 fd k1 k0).
      * specialize (Hv _ _ _ _ H1 Hk1). lia.
    + rewrite !lookup_insert_ne by done. by apply Hs.
Qed.

Lemma reachable_owned_apart d P w : reachable d P w → owned_apart w.
Proof.
  induction 1 as [dir|b c op w _ IH HP|b c key w _ IH].
  - split; unfold boot; simpl.
    + intros c fd k f. by rewrite lookup_empty.
    + intros c1 c2 fd1 fd2 k1 k2 f1 f2 _. by rewrite lookup_empty.
  - by apply owned_apart_performed.
  - destruct (get_channel_data_run b c w) as (fd & ad & w1 & hs & Hg & _).
    rewrite (get_value_run _ _ _ _ _ _ _ Hg). simpl.
    by apply (owned_apart_fetched _ _ _ _ _ _ IH Hg).
Qed.

(** Two worlds that agree on a channel's slots of the cache, on its entries
    in the database and on the list objects its facts refer to give the
    same facts and aliases for the channel. *)
Lemma channel_state_agree b c w w' :
  facts_cache w' !! c = facts_cache w !! c →
  aliases_cache w' !! c = aliases_cache w !! c →
  factoids_facts (db w') !! c = factoids_facts (db w) !! c →
  factoids_aliases (db w') !! c = factoids_aliases (db w) !! c →
  (∀ fd k f, facts_cache w !! c = Some fd → fd !! k = Some f →
             values f < length (heap w) ∧
             heap w' !! values f = heap w !! values f) →
  channel_state b c w' = channel_state b c w.
Proof.
  intros Hf Ha Hdf Hda Hh. unfold channel_state.
  destruct (get_channel_data_run b c w) as (fd & ad & w1 & hs & Hg & _).
  destruct (get_channel_data_run b c w') as (fd' & ad' & w1' & hs' & Hg' & _).
  rewrite Hg, Hg'.
  destruct (get_channel_data_loaded _ _ _ _ _ _ Hg)
    as (_ & _ & [ext Hext] & Hfd & Had).
  destruct (get_channel_data_loaded _ _ _ _ _ _ Hg')
    as (_ & _ & [ext' Hext'] & Hfd' & Had').
  rewrite Hf, Hdf in Hfd'. rewrite Ha, Hda in Had'.
  assert (ad' = ad) as ->.
  { destruct (aliases_cache w !! c); by subst. }
  f_equal. f_equal.
  destruct (facts_cache w !! c) as [fd0|] eqn:Hc.
  - subst fd fd'. apply map_eq. intros k. unfold encode_facts.
    rewrite !lookup_fmap. destruct (fd0 !! k) as [f|] eqn:Hk; [|done].
    simpl. unfold encode_fact, contents. do 2 f_equal.
    destruct (Hh _ _ _ eq_refl Hk) as [Hlt Heq].
    rewrite Hext, Hext', (lookup_app_l (heap w)) by done.
    rewrite lookup_app_l; [by rewrite Heq|].
    apply lookup_lt_is_Some. rewrite Heq. by apply lookup_lt_is_Some.
  - destruct Hfd as [-> _], Hfd' as [-> _]. done.
Qed.

(** A call on one channel leaves the facts and aliases of every other
    channel as they were, when no list object is shared. *)
Lemma perform_keeps_others b b' c c' op w :
  owned_apart w → c' ≠ c →
  channel_state b' c' (perform b c op w).2 = channel_state b' c' w.
Proof.
  intros Hw Hne.
  destruct (get_channel_data_run b c w)
    as (fd & ad & w1 & hs & Hg & _ & _ & Hh1 & _).
  destruct (owned_apart_fetched _ _ _ _ _ _ Hw Hg) as [_ Hs1].
  destruct (get_channel_data_slots _ _ _ _ _ _ Hg) as [Hsf _].
  destruct (get_channel_data_loaded _ _ _ _ _ _ Hg) as (Hothers & Hdb & _).
  destruct (Hothers c' Hne) as [Hfo Hao].
  destruct (perform b c op w) as [r w2] eqn:Hop. simpl.
  destruct (perform_change _ _ _ _ _ _ _ _ _ Hg Hop)
    as (fd' & ad' & Hch & Hfc & Hac & Hdbo).
  destruct (Hdbo c' Hne) as [Hdf Hda].
  destruct (change_facts _ _ _ _ _ _ _ Hch) as (_ & _ & Hheap).
  apply channel_state_agree.
  - by rewrite Hfc, lookup_insert_ne, Hfo.
  - by rewrite Hac, lookup_insert_ne, Hao.
  - by rewrite Hdf, Hdb.
  - by rewrite Hda, Hdb.
  - intros fd0 k f H0 Hk. destruct Hw as [Hv _].
    pose proof (Hv _ _ _ _ H0 Hk) as Hlt. split; [done|].
    rewrite Hheap.
    + rewrite Hh1. by apply lookup_app_l.
    + intros k0 f0 Hk0 Heq.
      apply (Hs1 c c' fd fd0 k0 k f0 f); try done.
      * by rewrite Hfo.
    + rewrite Hh1, length_app. lia.
Qed.

(** A lookup leaves the facts and aliases of every channel as they were,
    the channel it reads included. *)
Lemma get_value_keeps_state b b' c c' key w :
  owned_apart w →
  channel_state b' c' (get_value b c key w).2 = channel_state b' c' w.
Proof.
  intros [Hv _].
  destruct (get_channel_data_run b c w)
    as (fd & ad & w1 & hs & Hg & _ & _ & Hh1 & _).
  rewrite (get_value_run _ _ _ _ _ _ _ Hg). simpl.
  destruct (decide (c' = c)) as [->|Hne].
  - unfold channel_state.
    rewrite (get_channel_data_again b b' c w fd ad w1 Hg).
    change (get_channel_data b' c w) with (get_channel_data b c w).
    by rewrite Hg.
  - destruct (get_channel_data_loaded _ _ _ _ _ _ Hg) as (Hothers & Hdb & _).
    destruct (Hothers c' Hne) as [Hfo Hao].
    apply channel_state_agree; [done|done|by rewrite Hdb|by rewrite Hdb|].
    intros fd0 k f H0 Hk. pose proof (Hv _ _ _ _ H0 Hk) as Hlt.
    split; [done|]. rewrite Hh1. by apply lookup_app_l.
Qed.

(** X6. In a world the bot can reach, a call on one channel leaves the
    facts and aliases of every other channel as they were, whether the
    call returns or raises. *)
Theorem other_channels_untouched d P b b' c c' op w :
  reachable d P w → c' ≠ c →
  channel_state b' c' (perform b c op w).2 = channel_state b' c' w.
Proof.
  intros Hre Hne. apply perform_keeps_others; [|done].
  by apply (reachable_owned_apart d P).
Qed.

Lemma other_channels_untouched_witness :
  channel_state reliable "#chan"
    (perform reliable "#other" (AddFacts "Foo" "is" ["y"] true) aliased_world).2
  = channel_state reliable "#chan" aliased_world.
Proof.
  apply (other_channels_untouched empty_db (λ _, True)).
  - exact (reachable_perform _ _ _ _ _ _
             (reachable_perform _ _ _ _ _ _
                (reachable_perform _ _ _ _ _ _
                   (reachable_boot _ _ None) I) I) I).
  - discriminate.
Defined.

(** ** Splitting and joining text *)

Lemma append_cons a s t : String a s +:+ t = String a (s +:+ t).
Proof. reflexivity. Qed.

Lemma append_nil_l s : "" +:+ s = s.
Proof. reflexivity. Qed.

Lemma append_nil_r s : s +:+ "" = s.
Proof. induction s as [|a s IH]; [done|]. by rewrite append_cons, IH. Qed.

Lemma append_assoc s t u : (s +:+ t) +:+ u = s +:+ (t +:+ u).
Proof. induction s as [|a s IH]; [done|]. by rewrite !append_cons, IH. Qed.

Lemma prefix_split p s : String.prefix p s = true → ∃ r, s = p +:+ r.
Proof.
  revert s. induction p as [|a p IH]; intros s; [by exists s|].
  destruct s as [|b s]; [done|]. simpl.
  destruct (ascii_dec a b) as [->|]; [|done].
  intros [r ->]%IH. by exists r.
Qed.

Lemma prefix_append p r : String.prefix p (p +:+ r) = true.
Proof.
  induction p as [|a p IH]; [by destruct r|]. rewrite append_cons. simpl.
  by destruct (ascii_dec a a).
Qed.

Lemma split_from_nonempty sep k cur s : split_from sep k cur s ≠ [].
Proof.
  revert k cur. induction s as [|a s IH]; intros k cur; [done|].
  cbn [split_from]. destruct k; [|apply IH].
  destruct (String.prefix sep (String a s)); [done|apply IH].
Qed.

Lemma str_join_cons sep x rest :
  rest ≠ [] → str_join sep (x :: rest) = x +:+ sep +:+ str_join sep rest.
Proof. by destruct rest. Qed.

(** Joining what [split_from] gives back the text: the piece in hand, and
    what follows the characters still to be passed over. *)
Lemma split_from_join sep s p r cur :
  sep ≠ "" → s = p +:+ r →
  str_join sep (split_from sep (String.length p) cur s) = cur +:+ r.
Proof.
  intros Hsep. revert p r cur.
  induction s as [|a s IH]; intros p r cur Hs.
  - destruct p; [|done]. rewrite append_nil_l in Hs. subst r.
    simpl. by rewrite append_nil_r.
  - destruct p as [|b p].
    + rewrite append_nil_l in Hs. subst r. cbn [String.length split_from].
      destruct (String.prefix sep (String a s)) eqn:Hp.
      * apply prefix_split in Hp as [r2 Hr2].
        destruct sep as [|a' sep']; [done|]. rewrite append_cons in Hr2.
        injection Hr2 as <- ->.
        rewrite str_join_cons by apply split_from_nonempty.
        replace (String.length (String a sep') - 1) with (String.length sep')
          by (simpl; lia).
        rewrite (IH sep' r2 "" eq_refl).
        by rewrite append_nil_l, append_cons.
      * pose proof (IH "" s (cur +:+ String a "") eq_refl) as IH0.
        cbn [String.length] in IH0. rewrite IH0.
        by rewrite append_assoc.
    + rewrite append_cons in Hs. injection Hs as <- ->.
      cbn [String.length split_from].
      by apply IH.
Qed.

Lemma str_split_join sep s :
  sep ≠ "" → str_join sep (str_split sep s) = s.
Proof. intros Hsep. by apply (split_from_join sep s "" s ""). Qed.

(** ** Putting the values of a fact in one line *)

Lemma format_values_from acc vs :
  acc ≠ "" →
  foldl (λ formatted value,
           match formatted with
           | EmptyString => formatted +:+ value
           | _ => formatted +:+ " and also " +:+ value
           end) acc vs
  = str_join " and also " (acc :: vs).
Proof.
  revert acc. induction vs as [|v vs IH]; intros acc Hacc; [done|].
  cbn [foldl]. destruct acc as [|a acc]; [done|].
  rewrite IH by (by rewrite append_cons).
  destruct vs as [|v' vs]; [done|].
  rewrite !str_join_cons by done. by rewrite !append_assoc.
Qed.

(** X7. The line that [do_get] makes of the values of a fact is the values
    joined by " and also ", once the empty values at the front are left
    out: the separator is put before a value only when something has been
    written already. *)
Theorem format_values_joins vs :
  Commands.format_values vs
    = str_join " and also " (drop_leading_empty vs).
Proof.
  unfold Commands.format_values. induction vs as [|v vs IH]; [done|].
  destruct v as [|a v].
  - cbn [drop_leading_empty foldl]. exact IH.
  - cbn [drop_leading_empty foldl]. by rewrite format_values_from.
Qed.

(** ** Teaching in a channel, and asking *)

Lemma append_stop_not_empty t : t +:+ "." ≠ "".
Proof. by destruct t. Qed.

Lemma last_char_stop t : last_char (t +:+ ".") = Some "."%char.
Proof.
  induction t as [|a t IH]; [done|]. rewrite append_cons. cbn [last_char].
  destruct (t +:+ ".") eqn:E; [by apply append_stop_not_empty in E|done].
Qed.

Lemma but_last_stop t : but_last (t +:+ ".") = t.
Proof.
  induction t as [|a t IH]; [done|]. rewrite append_cons. cbn [but_last].
  destruct (t +:+ ".") eqn:E; [by apply append_stop_not_empty in E|].
  by rewrite IH.
Qed.

Lemma last_char_None s : last_char s = None ↔ s = "".
Proof.
  split; [|by intros ->]. induction s as [|a s IH]; [done|].
  cbn [last_char]. destruct s; [done|]. intros H. by apply IH in H.
Qed.

(** [learn] on a text with a full stop at its end, and on one without. *)
Lemma learn_body b sender key verb also facts text :
  facts = text +:+ "." ∨
    (facts = text ∧ text ≠ "" ∧ last_char text ≠ Some "."%char) →
  Commands.learn b sender key verb also facts
  = finish (except_fact_error (
      do _ <- add_facts b sender key verb (str_split " and also " text)
                (truthy also);
      if truthy also then ret [Reply ("I now know more about " +:+ key)]
      else ret [Reply ("I now know about " +:+ key)])).
Proof.
  unfold Commands.learn. intros [->|(-> & Hne & Hlast)].
  - by rewrite last_char_stop, decide_True, but_last_stop.
  - destruct (last_char text) as [c|] eqn:Hc;
      [|by apply last_char_None in Hc].
    rewrite decide_False; [done|]. by intros ->.
Qed.

Lemma do_get_run b channel target key error w fd ad w1 :
  get_channel_data b channel w = (Return (fd, ad), w1) →
  Commands.do_get b channel target key error w
  = (Return
       match fd !! lower (resolve_alias ad key) with
       | Some f =>
           [Say (target +:+ ": " +:+ name f +:+ " " +:+ verb f +:+ " "
                   +:+ Commands.format_values (contents (heap w1) (values f)))
                3]
       | None =>
           if error then [Reply ("Sorry, I don't know about " +:+ key)] else []
       end, w1).
Proof.
  intros Hg. unfold Commands.do_get, bind at 1.
  rewrite (get_value_run _ _ _ _ _ _ _ Hg).
  destruct (fd !! lower (resolve_alias ad key)) as [[n v l]|];
    [done|by destruct error].
Qed.

(** A call that gets as far as persisting returns when persisting
    succeeds. *)
Lemma perform_persists b c op w r w2 :
  perform b c op w = (r, w2) →
  (∀ m, r ≠ Raise (FactError m)) →
  persists b w = true → r = Return tt.
Proof.
  intros Hop Hr Hp.
  destruct (get_channel_data_run b c w)
    as (fd & ad & w1 & hs & Hg & _ & _ & _ & _ & He & _).
  assert (∀ fd' ad' wm,
            export_dir wm = export_dir w1 →
            set_channel_data b c fd' ad' wm = (r, w2) → r = Return tt) as Hs.
  { intros fd' ad' wm Hem Hs. apply (set_channel_data_outcome _ _ _ _ _ _ _ Hs).
    unfold persists in *. by rewrite Hem, He. }
  revert Hop. destruct op as [key verb add also|key value|key]; simpl.
  - rewrite (add_facts_run _ _ _ _ _ _ _ _ _ _ Hg). simpl.
    destruct (fd !! lower (resolve_alias ad key)) as [f|]; [destruct also|].
    + by apply Hs.
    + intros [= <- _]. by destruct (Hr (AlreadyDefined (name f))).
    + by apply Hs.
  - rewrite (set_alias_run _ _ _ _ _ _ _ _ Hg).
    destruct (ad !! lower key);
      [intros [= <- _]; by destruct (Hr (AlreadyAlias key))|].
    destruct (fd !! lower key);
      [intros [= <- _]; by destruct (Hr (AlreadyHasFacts key))|].
    simpl. destruct (fd !! lower (resolve_alias ad value));
      [|intros [= <- _]; by destruct (Hr (UnknownFact (resolve_alias ad value)))].
    by apply Hs.
  - rewrite (delete_value_run _ _ _ _ _ _ _ Hg).
    destruct (fd !! lower key); [by apply Hs|].
    destruct (ad !! lower key);
      [|intros [= <- _]; by destruct (Hr (UnknownKey key))].
    by apply Hs.
Qed.

(** What is told of a text is the text, when its first piece is not
    empty. *)
Lemma format_values_split text :
  String.prefix " and also " text = false →
  Commands.format_values (str_split " and also " text) = text.
Proof.
  intros Hp.
  pose proof (str_split_join " and also " text) as Hj.
  destruct (str_split " and also " text) as [|p rest] eqn:Hs.
  { by apply split_from_nonempty in Hs. }
  destruct p as [|a p].
  - destruct rest as [|q rest].
    + by rewrite <- Hj.
    + rewrite str_join_cons, append_nil_l in Hj by done.
      rewrite <- Hj, prefix_append in Hp; done.
  - unfold Commands.format_values. cbn [foldl]. rewrite append_nil_l.
    rewrite format_values_from by done. by apply Hj.
Qed.

(** X8. Teaching then asking gives the text back. When a key that names
    neither a fact nor an alias is taught in a channel with a text whose
    pieces carry no surrounding whitespace and which does not begin with
    " and also ", then, with or without one full stop at the end of what
    was written, asking for the key makes the bot say the nick, the key,
    the verb and that text. The bot says so from memory, also when the
    teaching could not be persisted; when it could, the teaching is
    acknowledged. *)
Theorem learn_then_get b b' sender nick key verb text facts w fd ad w1 r w2 :
  get_channel_data b sender w = (Return (fd, ad), w1) →
  fd !! lower key = None → ad !! lower key = None →
  facts = text +:+ "." ∨
    (facts = text ∧ text ≠ "" ∧ last_char text ≠ Some "."%char) →
  strip <$> str_split " and also " text = str_split " and also " text →
  String.prefix " and also " text = false →
  Commands.learn b sender key verb None facts w = (r, w2) →
  (persists b w = true → r = Done [Reply ("I now know about " +:+ key)]) ∧
  Commands.get b' sender nick None key w2
  = (Done [Say (nick +:+ ": " +:+ key +:+ " " +:+ verb +:+ " " +:+ text) 3],
     w2).
Proof.
  intros Hg Hf Ha Hfacts Hstrip Hp.
  rewrite (learn_body _ _ _ _ _ _ _ Hfacts). simpl.
  unfold finish, except_fact_error, bind.
  destruct (add_facts b sender key verb (str_split " and also " text) false w)
    as [ra wa] eqn:Hadd.
  destruct (add_facts_creates _ _ _ _ _ _ _ _ _ _ _ _ Hg Hf Ha Hadd)
    as (Hfc & Hac & Hh & Hra).
  assert (w2 = wa → Commands.get b' sender nick None key w2
            = (Done [Say (nick +:+ ": " +:+ key +:+ " " +:+ verb +:+ " "
                            +:+ text) 3], w2)) as Hget.
  { intros ->. unfold Commands.get, finish. simpl.
    rewrite (do_get_run b' sender nick key false wa _ _ wa
               (get_channel_data_cached _ _ _ _ _ Hfc Hac)).
    unfold resolve_alias. rewrite Ha, lookup_insert_eq. simpl.
    unfold contents. rewrite Hh, lookup_app_r, Nat.sub_diag by lia. simpl.
    by rewrite Hstrip, format_values_split. }
  destruct ra as [[]|e].
  - unfold ret. intros [= <- <-]. split; [done|by apply Hget].
  - destruct e as [m| |]; [by destruct (Hra m)|..];
      intros [= <- <-]; (split; [|by apply Hget]); intros Hpers;
      by pose proof (perform_persists b sender
                       (AddFacts key verb (str_split " and also " text) false)
                       w _ _ Hadd Hra Hpers).
Qed.

Lemma learn_then_get_witness :
  Commands.get reliable "#chan" "joe" None "deadbeef"
    (Commands.learn reliable "#chan" "deadbeef" "is" None
       "a hexadecimal dummy value and also tasty." sample_world).2
  = (Done [Say "joe: deadbeef is a hexadecimal dummy value and also tasty" 3],
     (Commands.learn reliable "#chan" "deadbeef" "is" None
        "a hexadecimal dummy value and also tasty." sample_world).2).
Proof.
  apply (learn_then_get reliable reliable "#chan" "joe" "deadbeef" "is"
           "a hexadecimal dummy value and also tasty"
           "a hexadecimal dummy value and also tasty." sample_world
           {[ "foo" := Fact "Foo" "is" 0 ]} {[ "foobar" := "foo" ]}
           (get_channel_data reliable "#chan" sample_world).2
           (Commands.learn reliable "#chan" "deadbeef" "is" None
              "a hexadecimal dummy value and also tasty." sample_world).1).
  - vm_compute. reflexivity.
  - vm_compute. reflexivity.
  - vm_compute. reflexivity.
  - left. reflexivity.
  - vm_compute. reflexivity.
  - vm_compute. reflexivity.
  - vm_compute. reflexivity.
Defined.

(** ** How the commands run *)

(** A command that calls one function of the store, answers when it
    returns and answers with the message when it raises a [FactError]. *)
Lemma finish_run (m : M unit) out w :
  finish (except_fact_error (do _ <- m; ret out)) w
  = (match (m w).1 with
     | Return _ => Done out
     | Raise (FactError msg) => Done [Reply (message_text msg)]
     | Raise e => Crashed (Uncaught e)
     end, (m w).2).
Proof.
  unfold finish, except_fact_error, bind, ret.
  by destruct (m w) as [[[]|[msg| |]] w'].
Qed.

Lemma learn_run b sender key verb also facts c w :
  last_char facts = Some c →
  Commands.learn b sender key verb also facts w
  = finish (except_fact_error (
      do _ <- perform b sender
                (AddFacts key verb
                   (str_split " and also "
                      (if decide (c = "."%char) then but_last facts else facts))
                   (truthy also));
      ret [Reply (if truthy also then "I now know more about " +:+ key
                  else "I now know about " +:+ key)])) w.
Proof.
  intros Hc. unfold Commands.learn. rewrite Hc. simpl.
  by destruct (truthy also).
Qed.

Lemma do_get_world b channel target key error w :
  ∃ out,
    Commands.do_get b channel target key error w
    = (Return out, (get_value b channel key w).2).
Proof.
  destruct (get_channel_data_run b channel w) as (fd & ad & w1 & hs & Hg & _).
  rewrite (do_get_run _ _ _ _ _ _ _ _ _ Hg), (get_value_run _ _ _ _ _ _ _ Hg).
  eauto.
Qed.

(** A channel that passes the check of the private commands is one of
    the bot's channels. *)
Lemma valid_channel channels channel :
  Commands.invalid_channel channels channel = false →
  format_arg channel ∈ channels.
Proof.
  unfold Commands.invalid_channel. destruct channel as [c|]; [|done].
  intros [_ H]%orb_false_elim. apply negb_false_iff in H.
  by apply bool_decide_eq_true in H.
Qed.

Lemma listnames_world b channels nick channel w :
  Commands.invalid_channel channels channel = false →
  ∃ out,
    Commands.listnames b channels nick channel w
    = (Done out, (get_value b (format_arg channel) "" w).2).
Proof.
  intros Hv. unfold Commands.listnames. rewrite Hv.
  destruct (get_channel_data_run b (format_arg channel) w)
    as (fd & ad & w1 & hs & Hg & _).
  unfold finish, bind. rewrite Hg, (get_value_run _ _ _ _ _ _ _ Hg). simpl.
  eauto.
Qed.

(** [re.split] with [maxsplit] gives at most one piece more than that. *)
Lemma re_split_from_length n sk cur s :
  (length (re_split_from n sk cur s) ≤ S n)%nat.
Proof.
  revert n sk cur. induction s as [|a s IH]; intros n sk cur; simpl; [lia|].
  destruct (is_space a); [|apply IH].
  destruct sk; [apply IH|]. destruct n as [|n]; [apply IH|].
  simpl. specialize (IH n true ""). lia.
Qed.

(** What a command does to the world is what one call of the store does,
    or one lookup, or nothing. *)
Lemma serve_world b channels rq w :
  (serve b channels rq w).2 = w ∨
  (∃ c op, with_values op ∧ (in_private rq = true → c ∈ channels) ∧
           (serve b channels rq w).2 = (perform b c op w).2) ∨
  (∃ c key, (serve b channels rq w).2 = (get_value b c key w).2).
Proof.
  destruct rq as [sender key verb also facts|sender key target|sender key
                 |sender nick target key|nick channel key|args
                 |channel key value|channel key|nick channel]; simpl.
  - destruct (last_char facts) as [c|] eqn:Hc;
      [|left; unfold Commands.learn; by rewrite Hc].
    right; left. rewrite (learn_run _ _ _ _ _ _ _ _ Hc), finish_run.
    eexists _, _. split_and!; [|done|done]. apply split_from_nonempty.
  - right; left. unfold Commands.alias. rewrite finish_run.
    by exists sender, (SetAlias key target).
  - right; left. unfold Commands.forget. rewrite finish_run.
    by exists sender, (DeleteValue key).
  - right; right. unfold Commands.get, finish.
    destruct (do_get_world b sender
                (if truthy target then format_arg target else nick)
                key (truthy target) w) as [out ->].
    eauto.
  - unfold Commands.getcmd.
    destruct (Commands.invalid_channel channels channel); [by left|].
    right; right. unfold finish.
    destruct (do_get_world b (format_arg channel) nick key true w)
      as [out ->].
    eauto.
  - unfold Commands.addcmd.
    destruct (re_split_spaces args 3) as [|a0 [|a1 [|a2 [|a3 [|a4 rest]]]]];
      try by left.
    destruct (Commands.invalid_channel channels (Some a0)) eqn:Hv;
      [by left|].
    destruct (negb (bool_decide (a2 ∈ ["is"; "are"]))); [by left|].
    right; left. rewrite finish_run.
    exists a0, (AddFacts a1 a2 (str_split ", and also " a3) true).
    split_and!; [apply split_from_nonempty| |done].
    intros _. apply (valid_channel channels (Some a0) Hv).
  - unfold Commands.addaliascmd.
    destruct (Commands.invalid_channel channels channel) eqn:Hv;
      [by left|].
    right; left. rewrite finish_run.
    exists (format_arg channel), (SetAlias key value).
    split_and!; [done| |done]. intros _. by apply valid_channel.
  - unfold Commands.delete.
    destruct (Commands.invalid_channel channels channel) eqn:Hv;
      [by left|].
    right; left. rewrite finish_run.
    exists (format_arg channel), (DeleteValue key).
    split_and!; [done| |done]. intros _. by apply valid_channel.
  - destruct (Commands.invalid_channel channels channel) eqn:Hv;
      [left; unfold Commands.listnames; by rewrite Hv|].
    right; right.
    destruct (listnames_world b channels nick channel w Hv) as [out ->].
    eauto.
Qed.

Lemma served_reachable d w : served d w → reachable d with_values w.
Proof.
  induction 1 as [dir|b channels rq w _ IH]; [constructor|].
  destruct (serve_world b channels rq w)
    as [->|[(c & op & Hop & _ & ->)|(c & key & ->)]];
    [done|by constructor|by constructor].
Qed.

(** X9. Whatever commands the bot has served since it started, in channels
    and in private messages, and whatever failed on the way, the data of
    every channel is sound when the database it started on was: every fact
    has at least one value and is kept under its name case-folded, and
    every alias has as target the key of a fact, which is not itself an
    alias, while its own key is not the key of a fact. The commands always
    teach a batch that is not empty, since it comes from [str.split]. *)
Theorem served_channels_are_sound d w b c F A :
  db_consistent d → db_valued d → served d w →
  channel_state b c w = Some (F, A) →
  (∀ k n v vs, F !! k = Some (n, v, vs) → vs ≠ [] ∧ lower n = k) ∧
  (∀ a t, A !! a = Some t →
          is_Some (F !! t) ∧ A !! t = None ∧ F !! a = None).
Proof.
  intros Hc Hv Hs%served_reachable. unfold channel_state.
  destruct (get_channel_data_run b c w) as (fd & ad & w1 & hs & Hg & _).
  rewrite Hg. intros [= <- <-].
  destruct (reachable_consistent _ _ _ _ _ _ _ _ Hc Hs Hg)
    as (Hname & Ht & Hdis).
  pose proof (reachable_valued _ _ _ _ _ _ _ Hv Hs Hg) as Hval.
  split.
  - intros k n v vs. unfold encode_facts. rewrite lookup_fmap.
    destruct (fd !! k) as [f|] eqn:Hk; [|done].
    destruct (Hval k f Hk) as (vs' & Hl & Hne).
    simpl. unfold encode_fact, contents. rewrite Hl.
    intros [= <- _ <-]. split; [done|]. by apply Hname.
  - intros a t Ha. destruct (Ht a t Ha) as [_ [f Hf]]. split_and!.
    + unfold encode_facts. rewrite lookup_fmap, Hf. eauto.
    + destruct (ad !! t) as [t'|] eqn:Hat; [|done].
      by rewrite (Hdis t t' Hat) in Hf.
    + unfold encode_facts. by rewrite lookup_fmap, (Hdis a t Ha).
Qed.

Lemma served_channels_are_sound_witness :
  channel_state reliable "#chan" taught_world
    = Some ({[ "foo" := ("Foo", "is", ["x"; "y"]) ]}, {[ "bar" := "foo" ]}) ∧
  (["x"; "y"] ≠ ([] : list string) ∧ lower "Foo" = "foo") ∧
  (is_Some (({[ "foo" := ("Foo", "is", ["x"; "y"]) ]}
               : gmap string stored_fact) !! "foo") ∧
   ({[ "bar" := "foo" ]} : gmap string string) !! "foo" = None ∧
   ({[ "foo" := ("Foo", "is", ["x"; "y"]) ]}
      : gmap string stored_fact) !! "bar" = None).
Proof.
  assert (channel_state reliable "#chan" taught_world
          = Some ({[ "foo" := ("Foo", "is", ["x"; "y"]) ]},
                  {[ "bar" := "foo" ]})) as Hcs
    by (vm_compute; reflexivity).
  split; [exact Hcs|].
  pose proof (served_channels_are_sound empty_db taught_world reliable "#chan"
                _ _ db_consistent_empty db_valued_empty
                (served_request _ reliable ["#chan"]
                   (AddAliasCmd (Some "#chan") "Bar" "FOO") _
                   (served_request _ reliable ["#chan"]
                      (Learn "#chan" "Foo" "is" None "x and also y.") _
                      (served_boot _ None)))
                Hcs) as [Hf Ha].
  split.
  - apply (Hf "foo" "Foo" "is" ["x"; "y"]). vm_compute. reflexivity.
  - apply (Ha "bar" "foo"). vm_compute. reflexivity.
Defined.

(** ** How a command can end *)





(** ** Asking *)



(** X12. What [listnames] sends for a channel it accepts: two messages to
    the nick, the first with the names of the facts, as they were written
    when taught and each fact once, the second with the keys of the
    aliases, each once; both lists are in order. *)
Theorem listnames_lists b channels nick channel w fd ad w1 :
  Commands.invalid_channel channels channel = false →
  get_channel_data b (format_arg channel) w = (Return (fd, ad), w1) →
  ∃ fs als,
    Commands.listnames b channels nick channel w
      = (Done [Msg nick ("Facts: " +:+ str_join ", " fs) 10;
               Msg nick ("Aliases: " +:+ str_join ", " als) 10], w1) ∧
    Sorted String.le fs ∧ length fs = size fd ∧
    (∀ n, n ∈ fs ↔ ∃ k f, fd !! k = Some f ∧ name f = n) ∧
    Sorted String.le als ∧ NoDup als ∧
    (∀ a, a ∈ als ↔ is_Some (ad !! a)).
Proof.
  intros Hv Hg.
  exists (sorted ((λ kv, name kv.2) <$> map_to_list fd)),
         (sorted (map_to_list ad).*1).
  split_and!.
  - unfold Commands.listnames, finish, bind. by rewrite Hv, Hg.
  - apply (Sorted_merge_sort String.le).
  - unfold sorted. by rewrite merge_sort_Permutation, length_fmap,
      length_map_to_list.
  - intros n. unfold sorted. rewrite merge_sort_Permutation.
    rewrite list_elem_of_fmap. split.
    + intros ([k f] & -> & Hk%elem_of_map_to_list). eauto.
    + intros (k & f & Hk & <-). exists (k, f). split; [done|].
      by apply elem_of_map_to_list.
  - apply (Sorted_merge_sort String.le).
  - unfold sorted. rewrite merge_sort_Permutation.
    apply NoDup_fst_map_to_list.
  - intros a. unfold sorted. rewrite merge_sort_Permutation.
    rewrite list_elem_of_fmap. split.
    + intros ([k t] & -> & Hk%elem_of_map_to_list). eauto.
    + intros [t Ht]. exists (a, t). split; [done|].
      by apply elem_of_map_to_list.
Qed.

Lemma listnames_lists_witness :
  ∃ fs als,
    Commands.listnames reliable ["#chan"] "joe" (Some "#chan") taught_world
      = (Done [Msg "joe" ("Facts: " +:+ str_join ", " fs) 10;
               Msg "joe" ("Aliases: " +:+ str_join ", " als) 10],
         taught_world) ∧
    Sorted String.le fs ∧
    length fs = size ({[ "foo" := Fact "Foo" "is" 0 ]} : gmap string fact) ∧
    (∀ n, n ∈ fs ↔
          ∃ k f, ({[ "foo" := Fact "Foo" "is" 0 ]} : gmap string fact) !! k
                   = Some f ∧ name f = n) ∧
    Sorted String.le als ∧ NoDup als ∧
    (∀ a, a ∈ als ↔
          is_Some (({[ "bar" := "foo" ]} : gmap string string) !! a)).
Proof.
  apply (listnames_lists reliable ["#chan"] "joe" (Some "#chan") taught_world).
  - vm_compute. reflexivity.
  - vm_compute. reflexivity.
Defined.

(** ** Teaching in a private message *)

Lemma add_facts_also_raises b c k v add w r w2 :
  add_facts b c k v add true w = (r, w2) → ∀ m, r ≠ Raise (FactError m).
Proof.
  destruct (get_channel_data_run b c w) as (fd & ad & w1 & hs & Hg & _).
  rewrite (add_facts_run _ _ _ _ _ _ _ _ _ _ Hg). simpl.
  destruct (fd !! lower (resolve_alias ad k));
    by intros (_ & _ & _ & _ & Hr)%set_channel_data_frame.
Qed.

(** X13. The answers of [addcmd]. It answers that arguments are missing,
    that the channel is not one of the bot's, or that the verb is neither
    "is" nor "are", and then has changed nothing; or it has taught the
    values to the channel, appending them when the key is known, and says
    so. It never answers with an error of the store: teaching with "also"
    cannot be refused. *)
Theorem addcmd_answers b channels args w out w' :
  Commands.addcmd b channels args w = (Done out, w') →
  (w' = w ∧
   (out = [Reply "Need at least 4 arguments"] ∨
    (∃ channel,
       out = [Commands.invalid_channel_reply channels (Some channel)]) ∨
    (∃ verb,
       (verb ∉ ["is"; "are"]) ∧
       out = [Reply ("Only 'is' and 'are' are supported as verbs, not "
                       +:+ verb)]))) ∨
  (∃ channel key verb value,
     re_split_spaces args 3 = [channel; key; verb; value] ∧
     channel ∈ channels ∧ verb ∈ ["is"; "are"] ∧
     add_facts b channel key verb (str_split ", and also " value) true w
       = (Return tt, w') ∧
     out = [Reply ("I now know (more) about " +:+ key)]).
Proof.
  unfold Commands.addcmd.
  pose proof (re_split_from_length 3 false "" args) as Hlen.
  unfold re_split_spaces in *.
  destruct (re_split_from 3 false "" args)
    as [|a0 [|a1 [|a2 [|a3 [|a4 rest]]]]];
    [by (intros [= <- <-]; left; split; [|left])..| |simpl in Hlen; lia].
  destruct (Commands.invalid_channel channels (Some a0)) eqn:Hv.
  { intros [= <- <-]. left. eauto 6. }
  destruct (bool_decide (a2 ∈ ["is"; "are"])) eqn:Hverb; simpl.
  2:{ intros [= <- <-]. left. split; [done|]. right; right. exists a2.
      split; [|done]. by apply bool_decide_eq_false in Hverb. }
  rewrite finish_run.
  destruct (add_facts b a0 a1 a2 (str_split ", and also " a3) true w)
    as [r w2] eqn:Hadd.
  pose proof (add_facts_also_raises _ _ _ _ _ _ _ _ Hadd) as Hr.
  simpl. destruct r as [[]|[m| |]]; [|by destruct (Hr m)|done..].
  intros [= <- <-]. right. exists a0, a1, a2, a3. split_and!; try done.
  - apply (valid_channel channels (Some a0) Hv).
  - by apply bool_decide_eq_true in Hverb.
Qed.

Lemma addcmd_answers_witness :
  ((Commands.addcmd reliable ["#chan"] "#chan Foo  is x, and also  y z"
      (boot empty_db None)).2 = boot empty_db None ∧
   ([Reply "I now know (more) about Foo"] = [Reply "Need at least 4 arguments"] ∨
    (∃ channel,
       [Reply "I now know (more) about Foo"]
       = [Commands.invalid_channel_reply ["#chan"] (Some channel)]) ∨
    (∃ verb,
       (verb ∉ ["is"; "are"]) ∧
       [Reply "I now know (more) about Foo"]
       = [Reply ("Only 'is' and 'are' are supported as verbs, not "
                   +:+ verb)]))) ∨
  (∃ channel key verb value,
     re_split_spaces "#chan Foo  is x, and also  y z" 3
       = [channel; key; verb; value] ∧
     channel ∈ ["#chan"] ∧ verb ∈ ["is"; "are"] ∧
     add_facts reliable channel key verb (str_split ", and also " value) true
       (boot empty_db None)
       = (Return tt,
          (Commands.addcmd reliable ["#chan"]
             "#chan Foo  is x, and also  y z" (boot empty_db None)).2) ∧
     [Reply "I now know (more) about Foo"]
     = [Reply ("I now know (more) about " +:+ key)]).
Proof.
  apply (addcmd_answers reliable ["#chan"] "#chan Foo  is x, and also  y z"
           (boot empty_db None)).
  vm_compute. reflexivity.
Defined.

(** ** Teaching what is known already *)

(** X14. Teaching, without "also", a key under which the channel has a
    fact, directly or through an alias, is refused: the bot answers that
    the fact, by the name it was taught with, is already defined, and how
    to add to it, and the channel is left as it was. *)
Theorem learn_refuses_known_key b sender key verb facts w fd ad w1 f :
  get_channel_data b sender w = (Return (fd, ad), w1) →
  fd !! lower (resolve_alias ad key) = Some f →
  facts ≠ "" →
  Commands.learn b sender key verb None facts w
  = (Done [Reply (name f +:+ " is already defined. Say " +:+ dquote
                    +:+ name f +:+ " is also ..." +:+ dquote
                    +:+ " to add an additional meaning")], w1).
Proof.
  intros Hg Hf Hne.
  destruct (last_char facts) as [c|] eqn:Hc;
    [|by apply last_char_None in Hc].
  rewrite (learn_run _ _ _ _ _ _ _ _ Hc), finish_run. simpl.
  rewrite (add_facts_run _ _ _ _ _ _ _ _ _ _ Hg). cbv zeta. by rewrite Hf.
Qed.

Lemma learn_refuses_known_key_witness :
  Commands.learn reliable "#chan" "FooBar" "are" None "something else"
    sample_world
  = (Done [Reply ("Foo" +:+ " is already defined. Say " +:+ dquote
                    +:+ "Foo" +:+ " is also ..." +:+ dquote
                    +:+ " to add an additional meaning")],
     (get_channel_data reliable "#chan" sample_world).2).
Proof.
  apply (learn_refuses_known_key reliable "#chan" "FooBar" "are"
           "something else" sample_world
           {[ "foo" := Fact "Foo" "is" 0 ]} {[ "foobar" := "foo" ]}
           (get_channel_data reliable "#chan" sample_world).2
           (Fact "Foo" "is" 0)).
  - vm_compute. reflexivity.
  - vm_compute. reflexivity.
  - discriminate.
Defined.

(** X15. Teaching with "also" a key under which the channel has a fact,
    kept under its name, adds to the fact: asked for the key afterwards,
    the bot says the fact by the name and the verb it was first taught
    with, whatever verb came with the addition, and tells the values it
    had followed by the pieces of the new text, each stripped. It does so
    from memory, also when the addition could not be persisted. *)
Theorem learn_also_then_get b b' sender nick key verb' also text facts
    w fd ad w1 f old r w2 :
  get_channel_data b sender w = (Return (fd, ad), w1) →
  fd !! lower (resolve_alias ad key) = Some f →
  lower (name f) = lower (resolve_alias ad key) →
  heap w1 !! values f = Some old →
  truthy also = true →
  facts = text +:+ "." ∨
    (facts = text ∧ text ≠ "" ∧ last_char text ≠ Some "."%char) →
  Commands.learn b sender key verb' also facts w = (r, w2) →
  Commands.get b' sender nick None key w2
  = (Done [Say (nick +:+ ": " +:+ name f +:+ " " +:+ verb f +:+ " "
                  +:+ Commands.format_values
                        (old ++ (strip <$> str_split " and also " text))) 3],
     w2).
Proof.
  intros Hg Hf Hname Hold Halso Hfacts.
  rewrite (learn_body _ _ _ _ _ _ _ Hfacts), Halso, finish_run.
  destruct (add_facts b sender key verb' (str_split " and also " text) true w)
    as [ra wa] eqn:Hadd.
  destruct (add_facts_extends _ _ _ _ _ _ _ _ _ _ _ _ _ Hg Hf Hold Hadd)
    as (Hfc & Hac & _ & Hh & _).
  simpl. intros [= _ <-].
  unfold Commands.get, finish. simpl.
  rewrite (do_get_run b' sender nick key false wa _ _ wa
             (get_channel_data_cached _ _ _ _ _ Hfc Hac)).
  rewrite <- Hname, lookup_insert_eq. unfold contents. by rewrite Hh.
Qed.

Lemma learn_also_then_get_witness :
  Commands.get reliable "#chan" "joe" None "foobar"
    (Commands.learn db_failing "#chan" "FooBar" "are" (Some "also ")
       "a word  and also short." sample_world).2
  = (Done [Say ("joe" +:+ ": " +:+ "Foo" +:+ " " +:+ "is" +:+ " "
                  +:+ Commands.format_values
                        (["a common placeholder"]
                           ++ (strip <$> str_split " and also "
                                           "a word  and also short"))) 3],
     (Commands.learn db_failing "#chan" "FooBar" "are" (Some "also ")
        "a word  and also short." sample_world).2).
Proof.
  apply (learn_also_then_get db_failing reliable "#chan" "joe" "foobar"
           "are" (Some "also ") "a word  and also short"
           "a word  and also short." sample_world
           {[ "foo" := Fact "Foo" "is" 0 ]} {[ "foobar" := "foo" ]}
           (get_channel_data reliable "#chan" sample_world).2
           (Fact "Foo" "is" 0) ["a common placeholder"]
           (Commands.learn db_failing "#chan" "FooBar" "are" (Some "also ")
              "a word  and also short." sample_world).1).
  - vm_compute. reflexivity.
  - vm_compute. reflexivity.
  - vm_compute. reflexivity.
  - vm_compute. reflexivity.
  - reflexivity.
  - left. reflexivity.
  - vm_compute. reflexivity.
Defined.

(** ** Private messages and the bot's channels *)

(** X16. A command given in a private message leaves the facts and aliases
    of every channel that is not one of the bot's channels as they were:
    it acts on the channel it names only after checking it. *)
Theorem private_commands_stay_in_channels d b b' channels rq c w :
  served d w → in_private rq = true → c ∉ channels →
  channel_state b' c (serve b channels rq w).2 = channel_state b' c w.
Proof.
  intros Hs%served_reachable%reachable_owned_apart Hrq Hc.
  destruct (serve_world b channels rq w)
    as [->|[(c0 & op & _ & Hin & ->)|(c0 & key & ->)]]; [done| |].
  - apply perform_keeps_others; [done|]. intros ->. by apply Hc, Hin.
  - by apply get_value_keeps_state.
Qed.

Lemma private_commands_stay_in_channels_witness :
  channel_state reliable "#chan"
    (serve reliable ["#other"] (Delete (Some "#chan") "Foo") taught_world).2
  = channel_state reliable "#chan" taught_world.
Proof.
  apply (private_commands_stay_in_channels empty_db reliable reliable
           ["#other"] (Delete (Some "#chan") "Foo") "#chan" taught_world).
  - exact (served_request _ reliable ["#chan"]
             (AddAliasCmd (Some "#chan") "Bar" "FOO") _
             (served_request _ reliable ["#chan"]
                (Learn "#chan" "Foo" "is" None "x and also y.") _
                (served_boot _ None))).
  - reflexivity.
  - by intros [=]%list_elem_of_singleton.
Defined.
